(** * dice-game: the session coordinator of [server.js]

    A shallow embedding of the socket.io server of the repository: the three
    process-wide containers ([players], [socketToRole], [readySet]), the three
    event handlers ([selectRole], [playerReady], [disconnect]) and the helper
    functions ([generateDicePoints], [broadcastPlayers], [tryStartRoll]).

    Modelling choices.
    - A JavaScript [Map] iterates in insertion order, and the roster that
      [broadcastPlayers] sends is built from that iteration; [JsMap] is
      therefore an insertion-ordered association list with the [Map]
      operations of the source ([has], [get], [set], [delete], [keys],
      [values]).
    - [readySet] is only queried, extended, shrunk and cleared by the code
      that talks to clients, so it is a finite set ([gset string]).
    - JavaScript numbers are IEEE-754 binary64 values: [spec_float] with
      precision 53 and maximal exponent 1024, and the operations [*], [+]
      of the dice formula are [SFmul] and [SFadd].
    - [Math.random] is an oracle: the sequence of values its successive calls
      return is a parameter, and the state counts the calls made so far.
    - Every [emit] of the source is recorded, in order, with the socket.io
      addressing mode used ([socket.emit], [io.emit],
      [socket.broadcast.emit]).  [console.log] lines are not modelled. *)

From Stdlib Require Import ZArith Lia String List SpecFloat.
From stdpp Require Import base list strings gmap.

Open Scope string_scope.

(* ===================================================================== *)
(** ** JavaScript [Map]: insertion-ordered association list              *)
(* ===================================================================== *)

Module JsMap.

Definition t (V : Type) : Type := list (string * V).

Section ops.
Context {V : Type}.

Definition empty : t V := [].

    (** [m.get(k)]: [None] stands for [undefined]. *)
Fixpoint get (k : string) (m : t V) : option V :=
      match m with
      | [] => None
      | (k', v) :: m' => if decide (k = k') then Some v else get k m'
      end.

    (** [m.has(k)] *)
Definition has (k : string) (m : t V) : bool :=
      match get k m with Some _ => true | None => false end.

    (** [m.set(k, v)]: an existing key keeps its position, a new key goes
        to the end. *)
Fixpoint set (k : string) (v : V) (m : t V) : t V :=
      match m with
      | [] => [(k, v)]
      | (k', v') :: m' =>
          if decide (k = k') then (k, v) :: m' else (k', v') :: set k v m'
      end.

    (** [m.delete(k)] *)
Fixpoint delete (k : string) (m : t V) : t V :=
      match m with
      | [] => []
      | (k', v') :: m' =>
          if decide (k = k') then delete k m' else (k', v') :: delete k m'
      end.

    (** [Array.from(m.keys())] and [Array.from(m.values())] *)
Definition keys (m : t V) : list string := map fst m.
Definition values (m : t V) : list V := map snd m.

End ops.

End JsMap.

(* ===================================================================== *)
(** ** JavaScript numbers and the dice formula                           *)
(* ===================================================================== *)

Definition prec : Z := 53.
Definition emax : Z := 1024.

(** The number denoted by an integer literal. *)
Definition Z2SF (z : Z) : spec_float := binary_normalize prec emax z 0 false.

Definition js_mul : spec_float -> spec_float -> spec_float := SFmul prec emax.
Definition js_add : spec_float -> spec_float -> spec_float := SFadd prec emax.

(** [Math.floor]: the largest integer not above the argument; zeros,
    infinities and NaN are returned as they are, and a zero result keeps the
    sign of the argument. *)
Definition Math_floor (x : spec_float) : spec_float :=
  match x with
  | S754_finite s m e =>
      binary_normalize prec emax (Z.shiftl (cond_Zopp s (Zpos m)) e) 0 s
  | _ => x
  end.

(** What the language guarantees of a value of [Math.random()]: a binary64
    number, at least [+0] and strictly less than [1]. *)
Definition in_unit_interval (x : spec_float) : bool :=
  valid_binary prec emax x
  && SFleb (S754_zero false) x
  && SFltb x (Z2SF 1).

(** [Math.floor(u * 6) + 1], for [u] the value of [Math.random()]. *)
Definition dice_point (u : spec_float) : spec_float :=
  js_add (Math_floor (js_mul u (Z2SF 6))) (Z2SF 1).

(** [x] is the number of an integer between [lo] and [hi]. *)
Definition integer_between (lo hi : Z) (x : spec_float) : Prop :=
  exists k : Z, (lo <= k <= hi)%Z /\ x = Z2SF k.

(* ===================================================================== *)
(** ** State, inbound events, outbound messages                          *)
(* ===================================================================== *)

(** The value stored in [players]: [{ socketId, role }]. *)
Record player : Type := Player { socketId : string; role : string }.

Record state : Type := State {
  players : JsMap.t player;       (* key: role *)
  socketToRole : JsMap.t string;  (* key: socket id, value: role *)
  readySet : gset string;
  random_calls : nat              (* calls of Math.random made so far *)
}.

Definition init : state :=
  {| players := JsMap.empty; socketToRole := JsMap.empty;
     readySet := ∅; random_calls := 0 |}.

Definition FIXED_ROLES : list string :=
  ["建广"; "建国"; "李川"; "凯宁"; "鸿晓"].

(** Inbound events, each with the id of the socket it arrives on. *)
Inductive event : Type :=
  | SelectRole (sid : string) (role : string)
  | PlayerReady (sid : string) (role : string)
  | Disconnect (sid : string).

(** Who receives an emitted message. *)
Inductive recipients : Type :=
  | ToSocket (sid : string)       (* socket.emit *)
  | ToAll                         (* io.emit *)
  | ToAllExcept (sid : string).   (* socket.broadcast.emit *)

(** Outbound messages with their payloads; an absent field is [None]. *)
Inductive message : Type :=
  | roleAssigned (success : bool) (role : option string) (msg : option string)
  | playersUpdate (playerList : list string)   (* each entry is { role } *)
  | someoneReady (role : string)
  | startRoll (roundPoints : JsMap.t (list spec_float))
  | errorMsg (msg : string).

Definition emission : Type := recipients * message.

Definition msg_invalid_role : string := "无效的角色".
Definition msg_role_taken : string := "该角色已被选走".
Definition msg_already_claimed : string := "你已经选择过角色，不能更换".
Definition msg_not_owner : string := "你不是该角色或角色不在线".

(* ===================================================================== *)
(** ** Helper functions and handlers                                     *)
(* ===================================================================== *)

Section Coordinator.

  (** [Math_random n] is the value returned by call number [n]. *)
Variable Math_random : nat -> spec_float.

  (** [Array.from({ length: 5 }, () => Math.floor(Math.random() * 6) + 1)],
      started after [c] calls of [Math.random]; returns the array and the
      new number of calls. *)
Definition generateDicePoints (c : nat) : list spec_float * nat :=
    (map (fun i => dice_point (Math_random (c + i))) (seq 0 5), c + 5).

  (** The [playerList] of [broadcastPlayers]. *)
Definition playerList (st : state) : list string :=
    map role (JsMap.values (players st)).

Definition broadcastPlayers (st : state) : list emission :=
    [(ToAll, playersUpdate (playerList st))].

  (** One iteration of the [forEach] of [tryStartRoll]:
      [roundPoints[role] = generateDicePoints()].  The object literal is
      a string-keyed table listed in insertion order. *)
Definition roll_for (acc : JsMap.t (list spec_float) * nat) (r : string)
    : JsMap.t (list spec_float) * nat :=
    let '(pts, c') := generateDicePoints (snd acc) in
    (JsMap.set r pts (fst acc), c').

Definition allReady (st : state) : bool :=
    let onlineRoles := JsMap.keys (players st) in
    (0 <? length onlineRoles)%nat
    && forallb (fun r => bool_decide (r ∈ readySet st)) onlineRoles.

Definition tryStartRoll (st : state) : state * list emission :=
    let onlineRoles := JsMap.keys (players st) in
    if allReady st then
      let '(roundPoints, c') :=
        fold_left roll_for onlineRoles (JsMap.empty, random_calls st) in
      ({| players := players st; socketToRole := socketToRole st;
          readySet := ∅; random_calls := c' |},
       [(ToAll, startRoll roundPoints)])
    else (st, []).

  (** Handler of [selectRole]. *)
Definition selectRole (sid r : string) (st : state) : state * list emission :=
    if negb (bool_decide (r ∈ FIXED_ROLES)) then
      (st, [(ToSocket sid, roleAssigned false None (Some msg_invalid_role))])
    else if JsMap.has r (players st) then
      (st, [(ToSocket sid, roleAssigned false None (Some msg_role_taken))])
    else if JsMap.has sid (socketToRole st) then
      (st, [(ToSocket sid, roleAssigned false None (Some msg_already_claimed))])
    else
      let st' :=
        {| players := JsMap.set r (Player sid r) (players st);
           socketToRole := JsMap.set sid r (socketToRole st);
           readySet := readySet st; random_calls := random_calls st |} in
      (st', (ToSocket sid, roleAssigned true (Some r) None)
              :: broadcastPlayers st').

  (** The test [!player || player.socketId !== socket.id]. *)
Definition not_owner (sid : string) (p : option player) : bool :=
    match p with
    | None => true
    | Some pl => negb (bool_decide (socketId pl = sid))
    end.

  (** Handler of [playerReady]. *)
Definition playerReady (sid r : string) (st : state) : state * list emission :=
    if not_owner sid (JsMap.get r (players st)) then
      (st, [(ToSocket sid, errorMsg msg_not_owner)])
    else
      let st1 :=
        {| players := players st; socketToRole := socketToRole st;
           readySet := {[ r ]} ∪ readySet st;
           random_calls := random_calls st |} in
      let '(st2, out) := tryStartRoll st1 in
      (st2, (ToAllExcept sid, someoneReady r) :: out).

  (** The test [if (role)] on the result of [socketToRole.get]: [undefined]
      and the empty string are falsy. *)
Definition truthy (r : option string) : bool :=
    match r with
    | None => false
    | Some s => negb (bool_decide (s = ""))
    end.

  (** Handler of [disconnect]. *)
Definition disconnect (sid : string) (st : state) : state * list emission :=
    match JsMap.get sid (socketToRole st) with
    | Some r =>
        if truthy (Some r) then
          let st' :=
            {| players := JsMap.delete r (players st);
               socketToRole := JsMap.delete sid (socketToRole st);
               readySet :=
                 if bool_decide (r ∈ readySet st)
                 then readySet st ∖ {[ r ]} else readySet st;
               random_calls := random_calls st |} in
          (st', broadcastPlayers st')
        else (st, [])
    | None => (st, [])
    end.

Definition handle (ev : event) (st : state) : state * list emission :=
    match ev with
    | SelectRole sid r => selectRole sid r st
    | PlayerReady sid r => playerReady sid r st
    | Disconnect sid => disconnect sid st
    end.

  (** The state after a sequence of events, and everything emitted. *)
Fixpoint run (evs : list event) (st : state) : state * list emission :=
    match evs with
    | [] => (st, [])
    | ev :: evs' =>
        let '(st1, out1) := handle ev st in
        let '(st2, out2) := run evs' st1 in
        (st2, (out1 ++ out2)%list)
    end.

Inductive reachable : state -> Prop :=
    | reachable_init : reachable init
    | reachable_step ev st : reachable st -> reachable (fst (handle ev st)).

End Coordinator.

(* ===================================================================== *)
(** ** Predicates used by the properties                                 *)
(* ===================================================================== *)

(** Role [r] is assigned, in [players], to the connection [c]. *)
Definition owner_of (st : state) (r c : string) : Prop :=
  exists p, JsMap.get r (players st) = Some p /\ socketId p = c.

(** [players] and [socketToRole] are inverse of each other. *)
Definition mutually_inverse (st : state) : Prop :=
  forall r c, owner_of st r c <-> JsMap.get c (socketToRole st) = Some r.

Definition ready_subset (st : state) : Prop :=
  forall r, r ∈ readySet st -> r ∈ JsMap.keys (players st).

Definition joint_invariant (st : state) : Prop :=
  mutually_inverse st /\ ready_subset st.

(** What the construction of the maps guarantees besides: keys are listed
    once, every stored player carries the role it is stored under, and
    every assigned role is one of the fixed roles. *)
Definition well_formed (st : state) : Prop :=
  NoDup (JsMap.keys (players st))
  /\ NoDup (JsMap.keys (socketToRole st))
  /\ Forall (fun kp => role (snd kp) = fst kp /\ fst kp ∈ FIXED_ROLES)
            (players st).

Definition is_startRoll (e : emission) : bool :=
  match snd e with startRoll _ => true | _ => false end.

(** Some emission of [out] is a [startRoll]. *)
Definition round_started (out : list emission) : bool :=
  existsb is_startRoll out.

(** The state of [playerReady] between [readySet.add(role)] and the call of
    [tryStartRoll]. *)
Definition ready_added (r : string) (st : state) : state :=
  {| players := players st; socketToRole := socketToRole st;
     readySet := {[ r ]} ∪ readySet st; random_calls := random_calls st |}.

(** The state [selectRole] leaves when it grants role [r] to socket [sid]. *)
Definition role_claimed (sid r : string) (st : state) : state :=
  {| players := JsMap.set r (Player sid r) (players st);
     socketToRole := JsMap.set sid r (socketToRole st);
     readySet := readySet st; random_calls := random_calls st |}.

(** The state [disconnect] leaves when socket [sid] held role [r]. *)
Definition role_released (sid r : string) (st : state) : state :=
  {| players := JsMap.delete r (players st);
     socketToRole := JsMap.delete sid (socketToRole st);
     readySet := readySet st ∖ {[ r ]}; random_calls := random_calls st |}.

(** The reply of a refused [selectRole]. *)
Definition refusal (sid text : string) : list emission :=
  [(ToSocket sid, roleAssigned false None (Some text))].

Definition is_errorMsg (e : emission) : bool :=
  match snd e with errorMsg _ => true | _ => false end.

(** Some emission of [out] is an [errorMsg]. *)
Definition signal_failed (out : list emission) : bool :=
  existsb is_errorMsg out.

(** The outcomes of a round for the roles [l], in the order of [l], when
    [c] calls of [Math.random] precede the round: the role at position [i]
    gets the points made of the calls [c + 5 i], ..., [c + 5 i + 4]. *)
Fixpoint rolls_from (Math_random : nat -> spec_float) (l : list string) (c : nat)
  : JsMap.t (list spec_float) :=
  match l with
  | [] => []
  | r :: l' =>
      (r, map (fun j => dice_point (Math_random (c + j))) (seq 0 5))
        :: rolls_from Math_random l' (c + 5)
  end.

(* ===================================================================== *)
(** ** Concrete runs                                                     *)
(* ===================================================================== *)

(** A [Math.random] that always returns [0.5]. *)
Definition always_half (n : nat) : spec_float :=
  S754_finite false 4503599627370496 (-53).

(** Two players claim their roles and the first one is ready. *)
Definition two_players_one_ready : list event :=
  [SelectRole "c1" "建广"; SelectRole "c2" "建国"; PlayerReady "c1" "建广"].

(** ... then the second player leaves: the only online role is ready. *)
Definition one_left_ready : list event :=
  (two_players_one_ready ++ [Disconnect "c2"])%list.

(** One player has claimed a role. *)
Definition one_player : list event := [SelectRole "c1" "建广"].

(** The state reached from [init] by the events [evs], with [always_half]. *)
Definition state_after (evs : list event) : state :=
  fst (run always_half evs init).

(* ===================================================================== *)
(** ** Further vocabulary                                                *)
(* ===================================================================== *)

(** The socket an event arrives on. *)
Definition sid_of (ev : event) : string :=
  match ev with
  | SelectRole sid _ | PlayerReady sid _ | Disconnect sid => sid
  end.

(** How the source addresses each kind of message, for a handler running on
    socket [sid]: [roleAssigned] and [errorMsg] with [socket.emit],
    [playersUpdate] and [startRoll] with [io.emit], [someoneReady] with
    [socket.broadcast.emit]. *)
Definition addressed_as_in_source (sid : string) (e : emission) : Prop :=
  match e with
  | (ToSocket s, roleAssigned _ _ _) => s = sid
  | (ToSocket s, errorMsg _) => s = sid
  | (ToAll, playersUpdate _) => True
  | (ToAll, startRoll _) => True
  | (ToAllExcept s, someoneReady _) => s = sid
  | _ => False
  end.

(** The number of [startRoll] emissions of [out]. *)
Definition rounds (out : list emission) : nat :=
  length (List.filter is_startRoll out).



(** Five sockets claim the five roles. *)
Definition full_house : list event :=
  [SelectRole "c1" "建广"; SelectRole "c2" "建国"; SelectRole "c3" "李川";
   SelectRole "c4" "凯宁"; SelectRole "c5" "鸿晓"].

(** For each face [k] from 1 to 6, a value of [Math.random] that gives it:
    0, 0.25, 0.375, 0.5, 0.75 and 0.875. *)
Definition value_for_face (k : Z) : spec_float :=
  match k with
  | 2%Z => S754_finite false 4503599627370496 (-54)
  | 3%Z => S754_finite false 6755399441055744 (-54)
  | 4%Z => S754_finite false 4503599627370496 (-53)
  | 5%Z => S754_finite false 6755399441055744 (-53)
  | 6%Z => S754_finite false 7881299347898368 (-53)
  | _ => S754_zero false
  end.

(* ===================================================================== *)
(** ** Facts about [JsMap]                                               *)
(* ===================================================================== *)

Module JsMapFacts.
Import JsMap.

Section facts.
Context {V : Type}.
Implicit Types (m : JsMap.t V) (k : string) (v : V).

Lemma get_set_eq k v m : get k (set k v m) = Some v.
Proof.
  induction m as [|[k' v'] m IH]; simpl; repeat case_decide; simpl;
    repeat case_decide; congruence.
Qed.

Lemma get_set_ne k k' v m : k <> k' -> get k' (set k v m) = get k' m.
Proof.
  intros Hne. induction m as [|[k0 v0] m IH]; simpl; repeat case_decide; simpl;
    repeat case_decide; congruence.
Qed.

Lemma get_delete_eq k m : get k (delete k m) = None.
Proof.
  induction m as [|[k0 v0] m IH]; simpl; repeat case_decide; simpl;
    repeat case_decide; congruence.
Qed.

Lemma get_delete_ne k k' m : k <> k' -> get k' (delete k m) = get k' m.
Proof.
  intros Hne. induction m as [|[k0 v0] m IH]; simpl; repeat case_decide; simpl;
    repeat case_decide; congruence.
Qed.

Lemma elem_of_keys k m : k ∈ keys m <-> is_Some (get k m).
Proof.
  unfold keys. induction m as [|[k0 v0] m IH]; simpl.
  - split; [intros H; inversion H | intros [x Hx]; discriminate].
  - rewrite elem_of_cons, IH. case_decide; subst.
    + split; eauto.
    + split; [intros [?|?]; [congruence | done] | eauto].
Qed.

Lemma has_true k m : has k m = true <-> k ∈ keys m.
Proof.
  rewrite elem_of_keys. unfold has. destruct (get k m); split; eauto;
    try discriminate. intros [x Hx]. discriminate.
Qed.

Lemma has_false k m : has k m = false <-> k ∉ keys m.
Proof.
  rewrite <- has_true. destruct (has k m); split; congruence.
Qed.

Lemma get_None k m : get k m = None <-> k ∉ keys m.
Proof.
  rewrite elem_of_keys. destruct (get k m) as [v|]; split; intros H.
  - discriminate.
  - destruct H. eauto.
  - intros [x Hx]. discriminate.
  - reflexivity.
Qed.

Lemma set_fresh k v m : k ∉ keys m -> set k v m = (m ++ [(k, v)])%list.
Proof.
  unfold keys. induction m as [|[k0 v0] m IH]; simpl; [done|].
  rewrite not_elem_of_cons. intros [Hne Hnin].
  case_decide; [congruence|]. by rewrite IH.
Qed.

Lemma keys_app m1 m2 : keys (m1 ++ m2)%list = (keys m1 ++ keys m2)%list.
Proof. unfold keys. apply map_app. Qed.

Lemma elem_of_keys_delete k k' m : k' ∈ keys (delete k m) <-> k' <> k /\ k' ∈ keys m.
Proof.
  rewrite !elem_of_keys. destruct (decide (k = k')) as [->|Hne].
  - rewrite get_delete_eq. split; [intros [x Hx]; discriminate | tauto].
  - rewrite get_delete_ne by done. split; [split; [congruence | done] | tauto].
Qed.

Lemma NoDup_keys_delete k m : NoDup (keys m) -> NoDup (keys (delete k m)).
Proof.
  induction m as [|[k0 v0] m IH]; simpl; [done|].
  rewrite NoDup_cons. intros [Hnin Hnd]. case_decide; [by apply IH|].
  simpl. rewrite NoDup_cons. split; [|by apply IH].
  change (k0 ∉ keys (delete k m)). rewrite elem_of_keys_delete. tauto.
Qed.

Lemma Forall_delete (P : string * V -> Prop) k m :
  Forall P m -> Forall P (delete k m).
Proof.
  induction 1 as [|[k0 v0] m HP Hm IH]; simpl; [constructor|].
  case_decide; [done|]. by constructor.
Qed.

End facts.
End JsMapFacts.

(* ===================================================================== *)
(** ** Facts about binary64 arithmetic and the dice formula              *)
(* ===================================================================== *)

Module FloatFacts.
Local Open Scope Z_scope.

(** [digits2_pos p] is the number of binary digits of [p]. *)
Lemma digits2_pos_bounds p :
  2 ^ (Zpos (digits2_pos p) - 1) <= Zpos p < 2 ^ Zpos (digits2_pos p).
Proof.
  induction p as [p IH|p IH|]; simpl digits2_pos.
  - rewrite Pos2Z.inj_succ.
    replace (Z.succ (Zpos (digits2_pos p)) - 1) with (Z.succ (Zpos (digits2_pos p) - 1)) by lia.
    rewrite !Z.pow_succ_r by lia. lia.
  - rewrite Pos2Z.inj_succ.
    replace (Z.succ (Zpos (digits2_pos p)) - 1) with (Z.succ (Zpos (digits2_pos p) - 1)) by lia.
    rewrite !Z.pow_succ_r by lia. lia.
  - simpl. lia.
Qed.

Lemma Zdigits2_upper z k : 0 <= z < 2 ^ k -> 0 <= k -> Zdigits2 z <= k.
Proof.
  intros [Hz Hlt] Hk. destruct z as [|p|p]; simpl; [lia| |lia].
  pose proof (digits2_pos_bounds p) as [Hlo _].
  destruct (Z_lt_le_dec k (Zpos (digits2_pos p))) as [Hgt|]; [|lia].
  exfalso. assert (2 ^ k <= 2 ^ (Zpos (digits2_pos p) - 1)); [|lia].
  apply Z.pow_le_mono_r; lia.
Qed.

(** The shift of the format is an iteration of [shr_1]. *)
Lemma iter_pos_nat {A} (f : A -> A) p : forall x,
  SpecFloat.iter_pos f p x = Nat.iter (Pos.to_nat p) f x.
Proof.
  induction p as [p IH|p IH|]; intros x; cbn [SpecFloat.iter_pos].
  - rewrite !IH, Pos2Nat.inj_xI, Nat.iter_succ_r.
    replace (2 * Pos.to_nat p)%nat with (Pos.to_nat p + Pos.to_nat p)%nat by lia.
    by rewrite Nat.iter_add.
  - rewrite !IH, Pos2Nat.inj_xO.
    replace (2 * Pos.to_nat p)%nat with (Pos.to_nat p + Pos.to_nat p)%nat by lia.
    by rewrite Nat.iter_add.
  - done.
Qed.

(** One step halves the mantissa; the round bit is the bit shifted out. *)
Lemma shr_1_step mrs :
  0 <= shr_m mrs ->
  shr_m (shr_1 mrs) = shr_m mrs / 2 /\ shr_r (shr_1 mrs) = Z.odd (shr_m mrs).
Proof.
  destruct mrs as [m r s]. simpl. intros Hm.
  destruct m as [|[p|p|]|p]; simpl; try lia; split; try reflexivity.
  - apply (Z.div_unique_pos _ 2 _ 1); lia.
  - apply (Z.div_unique_pos _ 2 _ 0); lia.
Qed.

Lemma shr_1_iter n mrs :
  0 <= shr_m mrs ->
  shr_m (Nat.iter n shr_1 mrs) = shr_m mrs / 2 ^ Z.of_nat n
  /\ (shr_r (Nat.iter n shr_1 mrs) = true ->
      (0 < n)%nat /\ Z.odd (shr_m mrs / 2 ^ (Z.of_nat n - 1)) = true
      \/ n = 0%nat /\ shr_r mrs = true).
Proof.
  intros Hm. induction n as [|n [IHm IHr]].
  - simpl. rewrite Z.div_1_r. auto.
  - rewrite Nat2Z.inj_succ. simpl Nat.iter.
    assert (0 <= shr_m (Nat.iter n shr_1 mrs)) as Hpos.
    { rewrite IHm. apply Z.div_pos; [done|]. apply Z.pow_pos_nonneg; lia. }
    destruct (shr_1_step _ Hpos) as [-> ->]. rewrite IHm. split.
    + rewrite Z.pow_succ_r by lia. rewrite Z.div_div; [|lia|lia].
      f_equal. lia.
    + intros Hodd. left. split; [lia|]. by replace (Z.succ (Z.of_nat n) - 1) with (Z.of_nat n) by lia.
Qed.

(** Shifting an exact mantissa by [n] places divides it by [2 ^ n]; the
    round bit can only be set by a digit that was shifted out. *)
Lemma shr_exact m e n mrs e' :
  0 <= m ->
  shr (shr_record_of_loc m loc_Exact) e n = (mrs, e') ->
  e' = e + Z.max 0 n
  /\ shr_m mrs = m / 2 ^ Z.max 0 n
  /\ (shr_r mrs = true -> 0 < n /\ Z.odd (m / 2 ^ (n - 1)) = true).
Proof.
  intros Hm. destruct n as [|p|p]; simpl.
  - intros [= <- <-]. simpl. rewrite Z.div_1_r. repeat split; try lia; discriminate.
  - rewrite iter_pos_nat. intros [= <- <-].
    destruct (shr_1_iter (Pos.to_nat p) {| shr_m := m; shr_r := false; shr_s := false |} Hm) as [Hmm Hr].
    simpl in Hmm, Hr. rewrite positive_nat_Z in *.
    split; [lia|]. split; [done|]. intros H. apply Hr in H as [[_ H]|[_ H]]; [|discriminate].
    split; [lia | done].
  - intros [= <- <-]. simpl. rewrite Z.div_1_r. repeat split; try lia; discriminate.
Qed.

(** Rounding to nearest keeps the mantissa or adds one, and adds one only
    when the round bit is set. *)
Lemma round_nearest_even_bounds mrs :
  let m' := round_nearest_even (shr_m mrs) (loc_of_shr_record mrs) in
  (m' = shr_m mrs \/ m' = shr_m mrs + 1 /\ shr_r mrs = true).
Proof.
  destruct mrs as [m [|] [|]]; simpl; auto.
  destruct (Z.even m); auto.
Qed.

Lemma fexp_binary64 t : fexp prec emax t = Z.max (t - 53) (-1074).
Proof. reflexivity. Qed.

Lemma Zdigits2_nonneg z : 0 <= Zdigits2 z.
Proof. destruct z; simpl; lia. Qed.

Lemma Zdigits2_lower z : 0 < z -> 2 ^ (Zdigits2 z - 1) <= z.
Proof. destruct z as [|p|p]; try lia. intros _. apply digits2_pos_bounds. Qed.

(** Rounding a value below [6 * 2 ^ (- e1)] units of [2 ^ e1] to the format
    keeps it below [6]. *)
Lemma renormalise_below_six m1 e1 mrs2 e2 :
  0 <= m1 < 6 * 2 ^ (- e1) -> e1 <= -50 ->
  shr_fexp prec emax m1 e1 loc_Exact = (mrs2, e2) ->
  e2 <= -50 /\ 0 <= shr_m mrs2 < 6 * 2 ^ (- e2).
Proof.
  intros [Hm Hlt] He1 H2. unfold shr_fexp in H2.
  apply shr_exact in H2 as (-> & -> & _); [|done].
  rewrite fexp_binary64.
  set (d2 := Zdigits2 m1). set (n2 := Z.max (d2 + e1 - 53) (-1074) - e1).
  assert (d2 <= 3 - e1) as Hd2.
  { apply Zdigits2_upper; [|lia]. split; [done|].
    replace (3 - e1) with (3 + - e1) by lia.
    rewrite Z.pow_add_r by lia. change (2 ^ 3) with 8.
    assert (0 < 2 ^ (- e1)) by (apply Z.pow_pos_nonneg; lia). lia. }
  pose proof (Zdigits2_nonneg m1) as Hd2'. fold d2 in Hd2'.
  split; [lia|].
  assert (0 < 2 ^ Z.max 0 n2) as HQ by (apply Z.pow_pos_nonneg; lia).
  split; [by apply Z.div_pos|].
  apply Z.div_lt_upper_bound; [done|].
  replace (- e1) with (Z.max 0 n2 + - (e1 + Z.max 0 n2)) in Hlt by lia.
  rewrite Z.pow_add_r in Hlt by lia. lia.
Qed.

(** A binary64 number with exponent at most [-53] is below [1]. *)
Lemma bounded_below_one m e :
  bounded prec emax m e = true -> e <= -53 ->
  let d := Zpos (digits2_pos m) in
  1 <= d <= 53 /\ d + e <= 0 /\ -1074 <= e /\ Zpos m <= 2 ^ (- e) - 1.
Proof.
  intros Hb He d. unfold bounded, canonical_mantissa in Hb.
  apply andb_true_iff in Hb as [Hc _]. apply Z.eqb_eq in Hc.
  rewrite fexp_binary64 in Hc. fold d in Hc.
  assert (1 <= d <= 53 /\ d + e <= 0 /\ -1074 <= e) as (Hd & Hde & Hlo) by lia.
  repeat split; try lia.
  pose proof (digits2_pos_bounds m) as [_ Hup]. fold d in Hup.
  assert (2 ^ d <= 2 ^ (- e)) by (apply Z.pow_le_mono_r; lia). lia.
Qed.

(** The first rounding of the product by [6]: the rounded mantissa stays
    below [6] units, because rounding up needs a remainder of at least half
    a unit while the product is at least [6 * 2 ^ e] below [6]. *)
Lemma round_product_below_six m e mrs1 e1 :
  bounded prec emax m e = true -> e <= -53 ->
  shr_fexp prec emax (Zpos (m * 6755399441055744)) (e + -50) loc_Exact
  = (mrs1, e1) ->
  e1 <= -50
  /\ 0 <= round_nearest_even (shr_m mrs1) (loc_of_shr_record mrs1)
       < 6 * 2 ^ (- e1).
Proof.
  intros Hb He H1.
  destruct (bounded_below_one m e Hb He) as (Hd & Hde & Hlo & Hm).
  set (d := Zpos (digits2_pos m)) in *.
  pose proof (digits2_pos_bounds m) as [Hmlo Hmup]. fold d in Hmlo, Hmup.
  unfold shr_fexp in H1. apply shr_exact in H1 as (-> & Hm1 & Hr); [|lia].
  rewrite fexp_binary64 in *. rewrite Pos2Z.inj_mul in *.
  set (c := 6755399441055744) in *.
  set (M := Zpos m * c) in *.
  set (dM := Zdigits2 M) in *.
  assert (0 < M) as HMpos by (unfold M, c; lia).
  (* the number of digits of the product *)
  assert (dM <= d + 53) as HdM1.
  { apply Zdigits2_upper; [|lia]. split; [lia|].
    rewrite Z.pow_add_r by lia. change (2 ^ 53) with 9007199254740992.
    unfold M, c. nia. }
  assert (d + 52 <= dM) as HdM2.
  { pose proof (digits2_pos_bounds (m * 6755399441055744)) as [_ Hup].
    rewrite Pos2Z.inj_mul in Hup. fold c M in Hup.
    change (Zpos (digits2_pos (m * 6755399441055744))) with dM in Hup.
    assert (2 ^ (d + 51) < 2 ^ dM) as Hlt.
    { eapply Z.le_lt_trans; [|exact Hup].
      replace (d + 51) with (d - 1 + 52) by lia. rewrite Z.pow_add_r by lia.
      change (2 ^ 52) with 4503599627370496. unfold M, c. nia. }
    destruct (Z_lt_le_dec (d + 51) dM) as [|Hle]; [lia|].
    assert (2 ^ dM <= 2 ^ (d + 51)) by (apply Z.pow_le_mono_r; lia). lia. }
  remember (Z.max (dM + (e + -50) - 53) (-1074) - (e + -50)) as n1 eqn:Hn1def.
  assert (0 <= n1 <= 53) as Hn1 by lia.
  rewrite (Z.max_r 0 n1) in * by lia.
  split; [lia|].
  remember (e + -50 + n1) as e1 eqn:He1def.
  assert (0 < 2 ^ n1) as HP by (apply Z.pow_pos_nonneg; lia).
  assert (0 < 2 ^ (- e1)) as HK by (apply Z.pow_pos_nonneg; lia).
  (* [6 * 2 ^ (- e1)] units of [2 ^ e1] are [c * 2 ^ (- e)] units of the product *)
  assert (6 * 2 ^ (- e1) * 2 ^ n1 = c * 2 ^ (- e)) as HKP.
  { rewrite <- Z.mul_assoc, <- Z.pow_add_r by lia.
    replace (- e1 + n1) with (50 + - e) by lia.
    rewrite Z.pow_add_r by lia. change (2 ^ 50) with 1125899906842624.
    unfold c. lia. }
  assert (M <= 6 * 2 ^ (- e1) * 2 ^ n1 - c) as HM.
  { rewrite HKP. unfold M. nia. }
  assert (0 <= shr_m mrs1 < 6 * 2 ^ (- e1)) as Hm1b.
  { rewrite Hm1. split; [apply Z.div_pos; lia|].
    apply Z.div_lt_upper_bound; [done|]. unfold c in HM. lia. }
  destruct (round_nearest_even_bounds mrs1) as [->|[-> Hup]]; [done|].
  split; [lia|].
  destruct (Hr Hup) as [Hn1pos Hodd].
  destruct (Z_lt_le_dec (shr_m mrs1 + 1) (6 * 2 ^ (- e1))) as [|Hge]; [done|].
  exfalso.
  set (H := 2 ^ (n1 - 1)) in *.
  assert (0 < H) as HH by (apply Z.pow_pos_nonneg; lia).
  assert (2 ^ n1 = 2 * H) as HPH.
  { unfold H. rewrite <- Z.pow_succ_r by lia. f_equal. lia. }
  assert (H <= 4503599627370496) as HHmax.
  { change 4503599627370496 with (2 ^ 52). apply Z.pow_le_mono_r; lia. }
  set (q := M / H) in *.
  assert (shr_m mrs1 = q / 2) as Hq.
  { rewrite Hm1, HPH. unfold q. rewrite Z.mul_comm, Z.div_div; lia. }
  assert (q = 2 * (q / 2) + 1) as Hq2.
  { pose proof (Z.div_mod q 2 ltac:(lia)) as Hdm.
    rewrite Zmod_odd, Hodd in Hdm. exact Hdm. }
  assert (H * q <= M) as HqM by (apply Z.mul_div_le; lia).
  rewrite HPH in HM. unfold c in HM. nia.
Qed.

(** The product of a binary64 number below [1] by [6] is a binary64 number
    below [6]. *)
Lemma js_mul_six_below_six m e :
  bounded prec emax m e = true -> e <= -53 ->
  js_mul (S754_finite false m e) (Z2SF 6) = S754_zero false
  \/ exists m' e',
       js_mul (S754_finite false m e) (Z2SF 6) = S754_finite false m' e'
       /\ e' < 0 /\ Zpos m' < 6 * 2 ^ (- e').
Proof.
  intros Hb He. unfold js_mul.
  change (Z2SF 6) with (S754_finite false 6755399441055744 (-50)).
  cbn [SFmul xorb]. unfold binary_round_aux.
  destruct (shr_fexp prec emax _ (e + -50) loc_Exact) as [mrs1 e1] eqn:H1.
  apply round_product_below_six in H1 as [He1 Hm1]; [|done|done].
  destruct (shr_fexp prec emax _ e1 loc_Exact) as [mrs2 e2] eqn:H2.
  apply renormalise_below_six in H2 as [He2 Hm2]; [|done|done].
  destruct (shr_m mrs2) as [|m2|m2]; [by left| |lia].
  right. exists m2, e2.
  assert ((e2 <=? emax - prec) = true) as -> by (apply Z.leb_le; unfold emax, prec; lia).
  repeat split; lia.
Qed.

Lemma Math_floor_below_six m e :
  e < 0 -> Zpos m < 6 * 2 ^ (- e) ->
  exists k, 0 <= k <= 5 /\ Math_floor (S754_finite false m e) = Z2SF k.
Proof.
  intros He Hm. exists (Zpos m / 2 ^ (- e)).
  assert (0 < 2 ^ (- e)) by (apply Z.pow_pos_nonneg; lia).
  split.
  - split; [apply Z.div_pos; lia|].
    assert (Zpos m / 2 ^ (- e) < 6); [|lia].
    apply Z.div_lt_upper_bound; lia.
  - unfold Math_floor, Z2SF. cbn [cond_Zopp].
    by rewrite Z.shiftl_div_pow2 by lia.
Qed.

Lemma js_add_one k : 0 <= k <= 5 -> js_add (Z2SF k) (Z2SF 1) = Z2SF (k + 1).
Proof.
  intros Hk.
  assert (k = 0 \/ k = 1 \/ k = 2 \/ k = 3 \/ k = 4 \/ k = 5)
    as [->|[->|[->|[->|[->| ->]]]]] by lia; reflexivity.
Qed.

(** What [in_unit_interval] says of the representation. *)

Lemma compare_cont_Eq_Lt p q :
  PosDef.Pos.compare_cont Eq p q = Lt -> Zpos p < Zpos q.
Proof. intros H. exact (proj1 (Pos.compare_lt_iff p q) H). Qed.

Lemma in_unit_interval_cases u :
  in_unit_interval u = true ->
  (exists s, u = S754_zero s)
  \/ exists m e, u = S754_finite false m e
                 /\ bounded prec emax m e = true /\ e <= -53.
Proof.
  unfold in_unit_interval.
  change (Z2SF 1) with (S754_finite false 4503599627370496 (-52)).
  destruct u as [s|s| |s m e]; cbn [valid_binary SFleb SFltb SFcompare andb].
  - intros _. left. by exists s.
  - destruct s; cbn [andb]; discriminate.
  - discriminate.
  - destruct s; [rewrite andb_false_r; discriminate|].
    rewrite andb_true_r. intros [Hv Hlt]%andb_true_iff.
    right. exists m, e. split; [reflexivity|]. split; [exact Hv|].
    destruct (Z.compare_spec e (-52)) as [->|Hl|Hg]; [|lia|discriminate].
    exfalso.

    destruct (PosDef.Pos.compare_cont Eq m _) eqn:Hc in Hlt; try discriminate.
    apply compare_cont_Eq_Lt in Hc.
    unfold bounded, canonical_mantissa in Hv.
    apply andb_true_iff in Hv as [Hv _]. apply Z.eqb_eq in Hv.
    rewrite fexp_binary64 in Hv.
    pose proof (digits2_pos_bounds m) as [Hlo _].
    replace (Zpos (digits2_pos m) - 1) with 52 in Hlo by lia.
    change (2 ^ 52) with 4503599627370496 in Hlo. lia.
Qed.

Lemma dice_point_in_range u :
  in_unit_interval u = true -> integer_between 1 6 (dice_point u).
Proof.
  
  intros [[s ->]|(m & e & -> & Hb & He)]%in_unit_interval_cases.
  - exists 1. split; [lia|]. destruct s; vm_compute; reflexivity.
  - unfold dice_point.
    destruct (js_mul_six_below_six m e Hb He) as [->|(m' & e' & -> & He' & Hm')].
    + exists 1. split; [lia | vm_compute; reflexivity].
    + destruct (Math_floor_below_six m' e' He' Hm') as (k & Hk & ->).
      exists (k + 1). split; [lia|]. apply js_add_one. exact Hk.
Qed.

End FloatFacts.

(* ===================================================================== *)
(** ** The handlers, case by case                                        *)
(* ===================================================================== *)

Section CoordinatorFacts.

Variable Math_random : nat -> spec_float.

Import JsMap JsMapFacts.

Local Abbreviation tryStartRoll := (tryStartRoll Math_random).
Local Abbreviation playerReady := (playerReady Math_random).
Local Abbreviation handle := (handle Math_random).
Local Abbreviation reachable := (reachable Math_random).
Local Abbreviation roll_for := (roll_for Math_random).

Lemma selectRole_cases sid r st :
  ((r ∉ FIXED_ROLES)
   /\ selectRole sid r st = (st, refusal sid msg_invalid_role))
  \/ ((r ∈ FIXED_ROLES) /\ (r ∈ keys (players st))
      /\ selectRole sid r st = (st, refusal sid msg_role_taken))
  \/ ((r ∈ FIXED_ROLES) /\ (r ∉ keys (players st))
      /\ (sid ∈ keys (socketToRole st))
      /\ selectRole sid r st = (st, refusal sid msg_already_claimed))
  \/ ((r ∈ FIXED_ROLES) /\ (r ∉ keys (players st))
      /\ (sid ∉ keys (socketToRole st))
      /\ selectRole sid r st
         = (role_claimed sid r st,
            [(ToSocket sid, roleAssigned true (Some r) None);
             (ToAll, playersUpdate (playerList (role_claimed sid r st)))])).
Proof.
  unfold selectRole.
  destruct (decide (r ∈ FIXED_ROLES)) as [Hin|Hnin].
  2:{ left. rewrite bool_decide_eq_false_2 by done. done. }
  rewrite bool_decide_eq_true_2 by done. simpl. right.
  destruct (has r (players st)) eqn:Hr.
  { left. apply has_true in Hr. done. }
  apply has_false in Hr. right.
  destruct (has sid (socketToRole st)) eqn:Hs.
  { left. apply has_true in Hs. done. }
  apply has_false in Hs. right. done.
Qed.

Lemma not_owner_false sid r st :
  not_owner sid (get r (players st)) = false <-> owner_of st r sid.
Proof.
  unfold not_owner, owner_of. destruct (get r (players st)) as [p|].
  - rewrite negb_false_iff, bool_decide_eq_true. split; [eauto|].
    intros (p' & Hp & Hs). congruence.
  - split; [discriminate | intros (p' & Hp & _); discriminate].
Qed.

Lemma not_owner_true sid r st :
  not_owner sid (get r (players st)) = true <-> ~ owner_of st r sid.
Proof.
  rewrite <- not_owner_false. destruct (not_owner _ _); split; congruence.
Qed.

Lemma allReady_true st :
  allReady st = true
  <-> keys (players st) <> [] /\ forall r, r ∈ keys (players st) -> r ∈ readySet st.
Proof.
  unfold allReady. rewrite andb_true_iff, Nat.ltb_lt, forallb_forall.
  split; intros [Hne Hall]; split.
  - intros Heq. rewrite Heq in Hne. simpl in Hne. lia.
  - intros r Hr. apply list_elem_of_In, Hall in Hr.
    by apply bool_decide_eq_true in Hr.
  - destruct (keys (players st)); [done | simpl; lia].
  - intros r Hr. apply bool_decide_eq_true, Hall, list_elem_of_In, Hr.
Qed.

Lemma tryStartRoll_fires st :
  allReady st = true ->
  tryStartRoll st
  = ({| players := players st; socketToRole := socketToRole st;
        readySet := ∅;
        random_calls :=
          snd (fold_left roll_for (keys (players st)) (empty, random_calls st)) |},
     [(ToAll,
       startRoll
         (fst (fold_left roll_for (keys (players st)) (empty, random_calls st))))]).
Proof.
  intros H. unfold tryStartRoll. rewrite H.
  by destruct (fold_left _ _ _).
Qed.

Lemma tryStartRoll_idle st : allReady st = false -> tryStartRoll st = (st, []).
Proof. intros H. unfold tryStartRoll. by rewrite H. Qed.

Lemma round_started_tryStartRoll st :
  round_started (snd (tryStartRoll st)) = allReady st.
Proof.
  destruct (allReady st) eqn:H.
  - by rewrite tryStartRoll_fires.
  - by rewrite tryStartRoll_idle.
Qed.

Lemma playerReady_refused sid r st :
  ~ owner_of st r sid ->
  playerReady sid r st = (st, [(ToSocket sid, errorMsg msg_not_owner)]).
Proof. intros H%not_owner_true. unfold playerReady. by rewrite H. Qed.

Lemma playerReady_accepted sid r st :
  owner_of st r sid ->
  playerReady sid r st
  = (fst (tryStartRoll (ready_added r st)),
     (ToAllExcept sid, someoneReady r) :: snd (tryStartRoll (ready_added r st))).
Proof.
  intros H%not_owner_false. unfold playerReady. rewrite H.
  fold (ready_added r st). by destruct (tryStartRoll _).
Qed.

Lemma disconnect_unassigned sid st :
  sid ∉ keys (socketToRole st) -> disconnect sid st = (st, []).
Proof. intros H%get_None. unfold disconnect. by rewrite H. Qed.

Lemma disconnect_assigned sid r st :
  get sid (socketToRole st) = Some r -> r <> "" ->
  disconnect sid st
  = (role_released sid r st,
     [(ToAll, playersUpdate (playerList (role_released sid r st)))]).
Proof.
  intros H Hne. unfold disconnect. rewrite H. simpl.
  rewrite bool_decide_eq_false_2 by done. simpl.
  unfold broadcastPlayers, role_released. simpl.
  case_bool_decide as Hr; [done|].
  by rewrite (difference_disjoint_L (readySet st) {[r]})
    by (by apply disjoint_singleton_r).
Qed.

(* ===================================================================== *)
(** ** Invariants                                                        *)
(* ===================================================================== *)

Lemma owner_of_functional st r c1 c2 :
  owner_of st r c1 -> owner_of st r c2 -> c1 = c2.
Proof. intros (p1 & H1 & <-) (p2 & H2 & <-). congruence. Qed.

Lemma owner_of_keys st r c : owner_of st r c -> r ∈ keys (players st).
Proof. intros (p & Hp & _). apply elem_of_keys. eauto. Qed.

Lemma mutually_inverse_claimed sid r st :
  r ∉ keys (players st) -> sid ∉ keys (socketToRole st) ->
  mutually_inverse st -> mutually_inverse (role_claimed sid r st).
Proof.
  intros Hr%get_None Hs%get_None Hinv r0 c0.
  specialize (Hinv r0 c0). unfold owner_of in *. simpl.
  destruct (decide (r = r0)) as [<-|Hr0]; destruct (decide (sid = c0)) as [<-|Hc0];
    rewrite ?get_set_eq, ?get_set_ne by done.
  - split; [done | eauto].
  - split.
    + intros (p & [= <-] & Hp). done.
    + intros H. apply Hinv in H as (p & Hp & _). congruence.
  - split.
    + intros H. apply Hinv in H. congruence.
    + intros [= ?]. done.
  - done.
Qed.

Lemma mutually_inverse_released sid r st :
  get sid (socketToRole st) = Some r ->
  mutually_inverse st -> mutually_inverse (role_released sid r st).
Proof.
  intros Hs Hinv r0 c0.
  pose proof (Hinv r0 c0) as H0. unfold owner_of in *. simpl.
  destruct (decide (r = r0)) as [<-|Hr0]; destruct (decide (sid = c0)) as [<-|Hc0];
    rewrite ?get_delete_eq, ?get_delete_ne by done.
  - split; [intros (p & ? & _); discriminate | discriminate].
  - split; [intros (p & ? & _); discriminate |].
    intros H. exfalso. apply Hc0.
    apply (owner_of_functional st r); apply Hinv; done.
  - split; [|discriminate]. intros H. apply H0 in H. congruence.
  - done.
Qed.

Lemma joint_invariant_selectRole sid r st :
  joint_invariant st -> joint_invariant (fst (selectRole sid r st)).
Proof.
  intros [Hinv Hsub].
  destruct (selectRole_cases sid r st)
    as [(_ & ->)|[(_ & _ & ->)|[(_ & _ & _ & ->)|(_ & Hr & Hs & ->)]]];
    try done.
  split; [by apply mutually_inverse_claimed|].
  intros r0 H0. simpl in *. apply elem_of_keys.
  destruct (decide (r = r0)) as [<-|Hne].
  - rewrite get_set_eq. eauto.
  - rewrite get_set_ne by done. by apply elem_of_keys, Hsub.
Qed.

Lemma joint_invariant_tryStartRoll st :
  joint_invariant st -> joint_invariant (fst (tryStartRoll st)).
Proof.
  intros [Hinv Hsub]. destruct (allReady st) eqn:H.
  - rewrite tryStartRoll_fires by done. split; [done|].
    intros r Hr. simpl in Hr. set_solver.
  - by rewrite tryStartRoll_idle.
Qed.

Lemma joint_invariant_playerReady sid r st :
  joint_invariant st -> joint_invariant (fst (playerReady sid r st)).
Proof.
  intros [Hinv Hsub]. destruct (not_owner sid (get r (players st))) eqn:H.
  - apply not_owner_true in H. by rewrite playerReady_refused.
  - apply not_owner_false in H. rewrite playerReady_accepted by done.
    simpl. apply joint_invariant_tryStartRoll. split; [done|].
    intros r0. simpl. rewrite elem_of_union, elem_of_singleton.
    intros [->|H0]; [by eapply owner_of_keys | by apply Hsub].
Qed.

Lemma joint_invariant_disconnect sid st :
  joint_invariant st -> joint_invariant (fst (disconnect sid st)).
Proof.
  intros [Hinv Hsub]. destruct (get sid (socketToRole st)) as [r|] eqn:Hs.
  2:{ apply get_None in Hs. by rewrite disconnect_unassigned. }
  destruct (decide (r = "")) as [->|Hne].
  { unfold disconnect. rewrite Hs. simpl. done. }
  rewrite (disconnect_assigned sid r) by done. simpl.
  split; [by apply mutually_inverse_released|].
  intros r0. simpl. rewrite elem_of_difference, elem_of_singleton.
  intros [H0 Hr0]. apply elem_of_keys_delete. split; [done | by apply Hsub].
Qed.

Lemma joint_invariant_handle ev st :
  joint_invariant st -> joint_invariant (fst (handle ev st)).
Proof.
  destruct ev; simpl;
    [apply joint_invariant_selectRole | apply joint_invariant_playerReady
    | apply joint_invariant_disconnect].
Qed.

Lemma joint_invariant_init : joint_invariant init.
Proof.
  split.
  - intros r c. split; [intros (p & ? & _); discriminate | discriminate].
  - intros r Hr. simpl in Hr. set_solver.
Qed.

Lemma well_formed_init : well_formed init.
Proof. repeat split; simpl; constructor. Qed.

Lemma well_formed_handle ev st : well_formed st -> well_formed (fst (handle ev st)).
Proof.
  intros (Hp & Hs & Hall). destruct ev as [sid r|sid r|sid]; simpl.
  - destruct (selectRole_cases sid r st)
      as [(_ & ->)|[(_ & _ & ->)|[(_ & _ & _ & ->)|(Hfix & Hr & Hc & ->)]]];
      try done.
    unfold well_formed. simpl. rewrite !set_fresh, !keys_app by done. simpl.
    repeat split.
    + apply NoDup_app. repeat split; [done | | apply NoDup_singleton].
      intros x Hx ->%list_elem_of_singleton. done.
    + apply NoDup_app. repeat split; [done | | apply NoDup_singleton].
      intros x Hx ->%list_elem_of_singleton. done.
    + apply Forall_app. split; [done|].
      constructor; [split; [reflexivity | assumption] | constructor].
  - destruct (not_owner sid (get r (players st))) eqn:H.
    + apply not_owner_true in H. by rewrite playerReady_refused.
    + apply not_owner_false in H. rewrite playerReady_accepted by done. simpl.
      destruct (allReady (ready_added r st)) eqn:Hall'.
      * by rewrite tryStartRoll_fires.
      * by rewrite tryStartRoll_idle.
  - unfold disconnect. destruct (get sid (socketToRole st)) as [r|]; [|done].
    destruct (truthy (Some r)); [|done]. simpl. repeat split; simpl.
    + by apply NoDup_keys_delete.
    + by apply NoDup_keys_delete.
    + by apply Forall_delete.
Qed.

Lemma reachable_joint_invariant st : reachable st -> joint_invariant st.
Proof.
  induction 1; [apply joint_invariant_init | by apply joint_invariant_handle].
Qed.

Lemma reachable_well_formed st : reachable st -> well_formed st.
Proof.
  induction 1; [apply well_formed_init | by apply well_formed_handle].
Qed.

(* ===================================================================== *)
(** ** Runs                                                              *)
(* ===================================================================== *)

Lemma reachable_run evs st : reachable st -> reachable (fst (run Math_random evs st)).
Proof.
  revert st. induction evs as [|ev evs IH]; intros st Hst; simpl; [done|].
  pose proof (reachable_step Math_random ev st Hst) as H1.
  destruct (handle ev st) as [st1 out1]. simpl in H1.
  specialize (IH st1 H1). by destruct (run Math_random evs st1).
Qed.

(** A socket that holds a role keeps it until its own [disconnect]. *)
Lemma claimed_until_disconnect evs sid st :
  Disconnect sid ∉ evs ->
  sid ∈ keys (socketToRole st) ->
  sid ∈ keys (socketToRole (fst (run Math_random evs st))).
Proof.
  revert st. induction evs as [|ev evs IH]; intros st Hev Hsid; simpl; [done|].
  apply not_elem_of_cons in Hev as [Hne Hev].
  assert (sid ∈ keys (socketToRole (fst (handle ev st)))) as H1.
  { destruct ev as [c r|c r|c]; simpl.
    - destruct (selectRole_cases c r st)
        as [(_ & ->)|[(_ & _ & ->)|[(_ & _ & _ & ->)|(_ & _ & Hc & ->)]]];
        try done.
      simpl. rewrite set_fresh, keys_app by done. apply elem_of_app. by left.
    - destruct (not_owner c (get r (players st))) eqn:H.
      + apply not_owner_true in H. by rewrite playerReady_refused.
      + apply not_owner_false in H. rewrite playerReady_accepted by done. simpl.
        destruct (allReady (ready_added r st)) eqn:Hall.
        * by rewrite tryStartRoll_fires.
        * by rewrite tryStartRoll_idle.
    - unfold disconnect. destruct (get c (socketToRole st)) as [r|]; [|done].
      destruct (truthy (Some r)); [|done]. simpl.
      apply elem_of_keys_delete. split; [congruence | done]. }
  destruct (handle ev st) as [st1 out1]. simpl in H1.
  specialize (IH st1 Hev H1). by destruct (run Math_random evs st1).
Qed.

(* ===================================================================== *)
(** ** The round points                                                  *)
(* ===================================================================== *)

Lemma roll_for_fold l : forall acc c,
  NoDup (keys acc ++ l) ->
  fold_left roll_for l (acc, c)
  = ((acc ++ rolls_from Math_random l c)%list, c + 5 * length l).
Proof.
  induction l as [|r l IH]; intros acc c Hnd; simpl.
  - rewrite app_nil_r. f_equal. lia.
  - assert (r ∉ keys acc) as Hr.
    { apply NoDup_app in Hnd as (_ & Hdis & _). intros Hin.
      apply (Hdis r Hin). by left. }
    unfold roll_for at 2. simpl. rewrite set_fresh by done.
    rewrite IH.
    + rewrite <- app_assoc. simpl. f_equal. lia.
    + rewrite keys_app. simpl. rewrite <- app_assoc. done.
Qed.

Lemma keys_rolls_from l c : keys (rolls_from Math_random l c) = l.
Proof.
  revert c. induction l as [|r l IH]; intros c; simpl; [done|].
  f_equal. apply IH.
Qed.

Lemma tryStartRoll_fires_well_formed st :
  NoDup (keys (players st)) ->
  allReady st = true ->
  tryStartRoll st
  = ({| players := players st; socketToRole := socketToRole st;
        readySet := ∅;
        random_calls := random_calls st + 5 * length (keys (players st)) |},
     [(ToAll,
       startRoll (rolls_from Math_random (keys (players st)) (random_calls st)))]).
Proof.
  intros Hnd H. rewrite tryStartRoll_fires by done.
  by rewrite roll_for_fold.
Qed.

(* ===================================================================== *)
(** ** Roster and notices                                                *)
(* ===================================================================== *)

Lemma playerList_keys st : well_formed st -> playerList st = keys (players st).
Proof.
  intros (_ & _ & Hall). unfold playerList, values, keys.
  induction Hall as [|[k p] m [Hk _] _ IH]; simpl in *; [done|].
  by rewrite Hk, IH.
Qed.

Lemma playerList_claimed sid r st :
  r ∉ keys (players st) ->
  playerList (role_claimed sid r st) = (playerList st ++ [r])%list.
Proof.
  intros Hr. unfold playerList, values. simpl. rewrite set_fresh by done.
  by rewrite !map_app.
Qed.

Lemma ready_added_already r st : r ∈ readySet st -> ready_added r st = st.
Proof.
  intros Hr. destruct st as [p s rs c]. unfold ready_added. simpl in *.
  f_equal. apply subseteq_union_1_L. by apply singleton_subseteq_l.
Qed.

Lemma signal_failed_tryStartRoll st : signal_failed (snd (tryStartRoll st)) = false.
Proof.
  destruct (allReady st) eqn:H.
  - by rewrite tryStartRoll_fires.
  - by rewrite tryStartRoll_idle.
Qed.

Lemma fixed_role_not_empty r : r ∈ FIXED_ROLES -> r <> "".
Proof.
  intros Hr ->. revert Hr.
  apply (bool_decide_eq_false_1 ("" ∈ FIXED_ROLES)). reflexivity.
Qed.

Lemma assigned_role_fixed st sid r :
  joint_invariant st -> well_formed st ->
  get sid (socketToRole st) = Some r -> r ∈ FIXED_ROLES.
Proof.
  intros [Hinv _] (_ & _ & Hall) Hs. apply Hinv in Hs as (p & Hp & _).
  clear Hinv. induction Hall as [|[k q] m [_ Hk] _ IH]; simpl in *; [done|].
  case_decide; [by subst | by apply IH].
Qed.

(* ===================================================================== *)
(** ** The dice of a round                                               *)
(* ===================================================================== *)

Lemma five_points_in_range c :
  (forall n, in_unit_interval (Math_random n) = true) ->
  Forall (integer_between 1 6)
         (map (fun j => dice_point (Math_random (c + j))) (seq 0 5)).
Proof.
  intros Hrand. apply Forall_forall. intros x Hx.
  apply list_elem_of_In, in_map_iff in Hx as (j & <- & _).
  apply FloatFacts.dice_point_in_range, Hrand.
Qed.

Lemma rolls_from_lookup l : forall c i r,
  l !! i = Some r ->
  rolls_from Math_random l c !! i
  = Some (r, map (fun j => dice_point (Math_random (c + 5 * i + j))) (seq 0 5)).
Proof.
  induction l as [|r0 l IH]; intros c i r Hi; [done|].
  destruct i as [|i]; simpl in Hi.
  - injection Hi as ->. cbn [rolls_from]. change ((?x :: _) !! 0%nat) with (Some x).
    do 2 f_equal. apply map_ext. intros j.
    by replace (c + 5 * 0 + j)%nat with (c + j)%nat by lia.
  - change (rolls_from Math_random l (c + 5) !! i
            = Some (r, map (fun j => dice_point (Math_random (c + 5 * S i + j)))
                           (seq 0 5))).
    rewrite (IH (c + 5)%nat i r Hi). do 2 f_equal. apply map_ext. intros j.
    by replace (c + 5 + 5 * i + j)%nat with (c + 5 * S i + j)%nat by lia.
Qed.

Lemma rolls_from_in_range l : forall c,
  (forall n, in_unit_interval (Math_random n) = true) ->
  Forall (fun kp => length (snd kp) = 5%nat
                    /\ Forall (integer_between 1 6) (snd kp))
         (rolls_from Math_random l c).
Proof.
  induction l as [|r l IH]; intros c Hrand; simpl; constructor.
  - split; [reflexivity | by apply five_points_in_range].
  - by apply IH.
Qed.

End CoordinatorFacts.

(* ===================================================================== *)
(** ** Properties of the coordinator                                     *)
(* ===================================================================== *)

Section Properties.

Variable Math_random : nat -> spec_float.

Import JsMap JsMapFacts.

Local Abbreviation tryStartRoll := (tryStartRoll Math_random).
Local Abbreviation playerReady := (playerReady Math_random).
Local Abbreviation handle := (handle Math_random).
Local Abbreviation reachable := (reachable Math_random).
Local Abbreviation run := (run Math_random).

(** C1.  The readiness barrier.  In every reachable state, when [sid]
    signals ready for a role [r] it owns, the evaluation that follows
    starts a round exactly when the list of online roles is not empty and
    every online role is in [readySet] (which now contains [r]).  The
    evaluation itself, [tryStartRoll], obeys the same equivalence in every
    state: it never fires with no role online nor while an online role is
    not ready; when it fires it emits one [startRoll] to all and clears
    [readySet], and when it does not it emits nothing and changes nothing. *)
Theorem barrier_fires_iff_all_online_ready st sid r :
  reachable st ->
  owner_of st r sid ->
  (round_started (snd (playerReady sid r st)) = true
   <-> keys (players st) <> []
       /\ forall r', r' ∈ keys (players st) -> r' ∈ ({[ r ]} ∪ readySet st : gset string))
  /\ (forall st0,
        (round_started (snd (tryStartRoll st0)) = true
         <-> keys (players st0) <> []
             /\ forall r', r' ∈ keys (players st0) -> r' ∈ readySet st0)
        /\ (round_started (snd (tryStartRoll st0)) = true ->
            readySet (fst (tryStartRoll st0)) = ∅
            /\ exists roundPoints,
                 snd (tryStartRoll st0) = [(ToAll, startRoll roundPoints)])
        /\ (round_started (snd (tryStartRoll st0)) = false ->
            tryStartRoll st0 = (st0, []))).
Proof.
  intros _ Hown. split.
  - rewrite playerReady_accepted by done. simpl.
    rewrite round_started_tryStartRoll. apply allReady_true.
  - intros st0. rewrite round_started_tryStartRoll. repeat split.
    + by apply allReady_true.
    + by apply allReady_true.
    + apply allReady_true; tauto.
    + rewrite tryStartRoll_fires by done. done.
    + rewrite tryStartRoll_fires by done. eauto.
    + apply tryStartRoll_idle.
Qed.

(** C2.  The joint invariant.  Every reachable state satisfies it, every
    handler and the barrier evaluation preserve it, and it gives the
    uniqueness of ownership: a role is owned by at most one connection and
    a connection owns at most one role. *)
Theorem joint_invariant_reachable_and_preserved st :
  reachable st ->
  joint_invariant st
  /\ (forall st0, joint_invariant st0 ->
        (forall sid r, joint_invariant (fst (selectRole sid r st0)))
        /\ (forall sid r, joint_invariant (fst (playerReady sid r st0)))
        /\ (forall sid, joint_invariant (fst (disconnect sid st0)))
        /\ joint_invariant (fst (tryStartRoll st0))
        /\ (forall r c1 c2,
              get c1 (socketToRole st0) = Some r ->
              get c2 (socketToRole st0) = Some r -> c1 = c2)
        /\ (forall c r1 r2, owner_of st0 r1 c -> owner_of st0 r2 c -> r1 = r2)).
Proof.
  intros Hst. split; [by eapply reachable_joint_invariant|].
  intros st0 Hinv.
  split; [intros; by apply joint_invariant_selectRole|].
  split; [intros; by apply joint_invariant_playerReady|].
  split; [intros; by apply joint_invariant_disconnect|].
  split; [by apply joint_invariant_tryStartRoll|].
  destruct Hinv as [Hinv _]. split.
  - intros r c1 c2 H1 H2.
    apply Hinv in H1, H2. by eapply owner_of_functional.
  - intros c r1 r2 H1 H2.
    apply Hinv in H1, H2. congruence.
Qed.

(** C3.  [selectRole] checks, in this order, that the role is one of the
    fixed roles, that it is free, and that the socket holds no role; the
    first check that fails decides the one reply, which goes to the
    requester only, and the state is left as it was.  When all three pass,
    [players] and [socketToRole] each gain the one new entry, [readySet] is
    untouched, the requester gets the success reply with the role, and the
    new roster (the online roles, when the state is well formed) goes to
    all.  The three error texts differ from one another. *)
Theorem selectRole_checks_in_order sid r st :
  ((r ∉ FIXED_ROLES) ->
   selectRole sid r st = (st, [(ToSocket sid, roleAssigned false None (Some msg_invalid_role))]))
  /\ ((r ∈ FIXED_ROLES) -> (r ∈ keys (players st)) ->
      selectRole sid r st = (st, [(ToSocket sid, roleAssigned false None (Some msg_role_taken))]))
  /\ ((r ∈ FIXED_ROLES) -> (r ∉ keys (players st)) -> (sid ∈ keys (socketToRole st)) ->
      selectRole sid r st
      = (st, [(ToSocket sid, roleAssigned false None (Some msg_already_claimed))]))
  /\ ((r ∈ FIXED_ROLES) -> (r ∉ keys (players st)) -> (sid ∉ keys (socketToRole st)) ->
      exists st',
        selectRole sid r st
        = (st', [(ToSocket sid, roleAssigned true (Some r) None);
                 (ToAll, playersUpdate (playerList st'))])
        /\ players st' = (players st ++ [(r, Player sid r)])%list
        /\ socketToRole st' = (socketToRole st ++ [(sid, r)])%list
        /\ readySet st' = readySet st
        /\ random_calls st' = random_calls st
        /\ playerList st' = (playerList st ++ [r])%list
        /\ (well_formed st -> playerList st' = (keys (players st) ++ [r])%list))
  /\ NoDup [msg_invalid_role; msg_role_taken; msg_already_claimed].
Proof.
  destruct (selectRole_cases sid r st)
    as [(H1 & Heq)|[(H1 & H2 & Heq)|[(H1 & H2 & H3 & Heq)|(H1 & H2 & H3 & Heq)]]];
    (split; [|split; [|split; [|split]]]); try (intros; done);
    try (by apply (bool_decide_eq_true_1 (NoDup _)); vm_compute).
  intros _ _ _. exists (role_claimed sid r st). split; [done|]. simpl.
  rewrite !set_fresh by done. repeat (split; [done|]).
  split; [by apply playerList_claimed|].
  intros Hwf. rewrite playerList_claimed by done. by rewrite playerList_keys.
Qed.

(** C5.  When a round starts (which only [playerReady] can cause), the
    output is the notice of readiness followed by exactly one [startRoll]
    to all, [readySet] is empty afterwards, and the keys of [roundPoints]
    are the online roles at that moment, each listed once and in the order
    of [players]. *)
Theorem round_covers_online_roles st sid r :
  reachable st ->
  round_started (snd (playerReady sid r st)) = true ->
  exists roundPoints,
    snd (playerReady sid r st)
    = [(ToAllExcept sid, someoneReady r); (ToAll, startRoll roundPoints)]
    /\ readySet (fst (playerReady sid r st)) = ∅
    /\ keys roundPoints = keys (players st)
    /\ NoDup (keys roundPoints)
    /\ (forall r', is_Some (get r' roundPoints) <-> r' ∈ keys (players st)).
Proof.
  intros Hst Hfire. pose proof (reachable_well_formed _ _ Hst) as (Hnd & _).
  destruct (not_owner sid (get r (players st))) eqn:Hown.
  { apply not_owner_true in Hown. rewrite playerReady_refused in Hfire by done.
    discriminate. }
  apply not_owner_false in Hown. rewrite playerReady_accepted in * by done.
  simpl in Hfire. rewrite round_started_tryStartRoll in Hfire.
  rewrite (tryStartRoll_fires_well_formed _ (ready_added r st)) by done. simpl.
  eexists. split; [done|]. rewrite keys_rolls_from.
  repeat (split; [done|]). intros r'. by rewrite <- elem_of_keys, keys_rolls_from.
Qed.

(** C6.  In a reachable state, the disconnection of a socket that holds
    role [r] removes [r] from [players], the socket from [socketToRole] and
    [r] from [readySet], and emits the new roster to all and nothing else:
    no round starts and the rest of [readySet] stays, also when every role
    still online is ready. *)
Theorem disconnect_releases_without_round st sid r :
  reachable st ->
  get sid (socketToRole st) = Some r ->
  exists st',
    disconnect sid st = (st', [(ToAll, playersUpdate (keys (players st')))])
    /\ players st' = delete r (players st)
    /\ socketToRole st' = delete sid (socketToRole st)
    /\ readySet st' = readySet st ∖ {[ r ]}
    /\ random_calls st' = random_calls st
    /\ (r ∉ keys (players st'))
    /\ (sid ∉ keys (socketToRole st'))
    /\ (r ∉ readySet st')
    /\ round_started (snd (disconnect sid st)) = false.
Proof.
  intros Hst Hs.
  pose proof (reachable_joint_invariant _ _ Hst) as Hinv.
  pose proof (reachable_well_formed _ _ Hst) as Hwf.
  pose proof (fixed_role_not_empty _ (assigned_role_fixed _ _ _ Hinv Hwf Hs)) as Hne.
  pose proof (well_formed_handle Math_random (Disconnect sid) st Hwf) as Hwf'.
  simpl in Hwf'. rewrite (disconnect_assigned sid r) in * by done.
  exists (role_released sid r st). simpl in Hwf'. rewrite playerList_keys by done.
  split; [done|]. simpl. repeat (split; [done|]).
  split; [apply get_None, get_delete_eq|].
  split; [apply get_None, get_delete_eq|].
  split; [|done]. intros [_ H]%elem_of_difference. by apply H, elem_of_singleton.
Qed.

(** C9.  [playerReady] fails exactly when the role is not a key of
    [players] or is assigned to a connection other than the caller; a
    failure emits the one error notice, to the caller only, and leaves the
    state as it was; a success emits the notice of readiness to all but the
    caller, leaves [players] and [socketToRole] as they were, and emits no
    error. *)
Theorem playerReady_fails_iff_not_owner sid r st :
  (signal_failed (snd (playerReady sid r st)) = true
   <-> (r ∉ keys (players st))
       \/ exists p, get r (players st) = Some p /\ socketId p <> sid)
  /\ (signal_failed (snd (playerReady sid r st)) = true ->
      playerReady sid r st = (st, [(ToSocket sid, errorMsg msg_not_owner)]))
  /\ (signal_failed (snd (playerReady sid r st)) = false ->
      exists out,
        snd (playerReady sid r st) = (ToAllExcept sid, someoneReady r) :: out
        /\ signal_failed out = false
        /\ players (fst (playerReady sid r st)) = players st
        /\ socketToRole (fst (playerReady sid r st)) = socketToRole st).
Proof.
  destruct (not_owner sid (get r (players st))) eqn:Hown.
  - pose proof Hown as Hno%not_owner_true.
    rewrite playerReady_refused by done. simpl.
    split; [|split; [done | discriminate]]. split; [intros _|done].
    unfold not_owner in Hown. destruct (get r (players st)) as [p|] eqn:Hp.
    + right. exists p. split; [done|].
      by apply negb_true_iff, bool_decide_eq_false in Hown.
    + left. by apply get_None.
  - pose proof Hown as Hyes%not_owner_false.
    rewrite playerReady_accepted by done.
    unfold signal_failed at 1 2 3. simpl.
    fold (signal_failed (snd (tryStartRoll (ready_added r st)))).
    rewrite signal_failed_tryStartRoll.
    split; [|split; [discriminate|]].
    + split; [discriminate|]. destruct Hyes as (p & Hp & Hsid).
      intros [Hnin%get_None|(p' & Hp' & Hne)]; congruence.
    + intros _. eexists. split; [done|]. split; [apply signal_failed_tryStartRoll|].
      destruct (allReady (ready_added r st)) eqn:Hall.
      * by rewrite tryStartRoll_fires.
      * by rewrite tryStartRoll_idle.
Qed.

(** C10.  The barrier evaluation changes nothing but [readySet] (and
    consumes random numbers): [players] and [socketToRole] are the same
    before and after, whether or not a round starts, and so are they across
    the whole of [playerReady]. *)
Theorem barrier_frame st :
  players (fst (tryStartRoll st)) = players st
  /\ socketToRole (fst (tryStartRoll st)) = socketToRole st
  /\ forall sid r,
       players (fst (playerReady sid r st)) = players st
       /\ socketToRole (fst (playerReady sid r st)) = socketToRole st.
Proof.
  assert (forall st0, players (fst (tryStartRoll st0)) = players st0
                      /\ socketToRole (fst (tryStartRoll st0)) = socketToRole st0)
    as Hframe.
  { intros st0. destruct (allReady st0) eqn:Hall.
    - by rewrite tryStartRoll_fires.
    - by rewrite tryStartRoll_idle. }
  split; [apply Hframe|]. split; [apply Hframe|].
  intros sid r. destruct (not_owner sid (get r (players st))) eqn:Hown.
  - apply not_owner_true in Hown. by rewrite playerReady_refused.
  - apply not_owner_false in Hown. rewrite playerReady_accepted by done.
    apply (Hframe (ready_added r st)).
Qed.

(** C4 (amended).  A connection that has claimed a role and has not
    disconnected since is refused every further claim, whatever the role
    and whatever happened in between, with no change of state; the text of
    the refusal follows the order of the checks: invalid role when the
    role is not one of the fixed roles, role taken when it is currently
    assigned (to anyone, the requester included), and already claimed only
    when the role is a fixed role that is currently free. *)
Theorem second_claim_refused st sid r0 evs r st1 :
  (r0 ∈ FIXED_ROLES) -> (r0 ∉ keys (players st)) ->
  (sid ∉ keys (socketToRole st)) ->
  (Disconnect sid ∉ evs) ->
  st1 = fst (run evs (fst (selectRole sid r0 st))) ->
  exists text,
    selectRole sid r st1
    = (st1, [(ToSocket sid, roleAssigned false None (Some text))])
    /\ ((r ∉ FIXED_ROLES) -> text = msg_invalid_role)
    /\ ((r ∈ FIXED_ROLES) -> (r ∈ keys (players st1)) -> text = msg_role_taken)
    /\ ((r ∈ FIXED_ROLES) -> (r ∉ keys (players st1)) ->
        text = msg_already_claimed).
Proof.
  intros Hfix Hfree Hnew Hev ->.
  set (st1 := fst (run evs (fst (selectRole sid r0 st)))).
  assert (sid ∈ keys (socketToRole st1)) as Hsid.
  { apply claimed_until_disconnect; [done|].
    destruct (selectRole_cases sid r0 st)
      as [(? & _)|[(_ & ? & _)|[(_ & _ & ? & _)|(_ & _ & _ & ->)]]]; try done.
    simpl. apply elem_of_keys. rewrite get_set_eq. eauto. }
  destruct (selectRole_cases sid r st1)
    as [(H1 & ->)|[(H1 & H2 & ->)|[(H1 & H2 & H3 & ->)|(_ & _ & H3 & _)]]];
    [| | |done]; eexists; (split; [reflexivity|]); repeat split; intros; done.
Qed.

(** C8 (amended).  A ready signal for a role that is already in [readySet]
    and is owned by the caller leaves [players] and [socketToRole] as they
    were and adds nothing to [readySet], but the notice of readiness is
    emitted again and the barrier is evaluated again: when some online role
    is not ready the state is unchanged and the notice is the only
    emission; when every online role is ready a round starts and
    [readySet] is cleared. *)
Theorem repeated_ready_signal st sid r :
  owner_of st r sid ->
  (r ∈ readySet st) ->
  players (fst (playerReady sid r st)) = players st
  /\ socketToRole (fst (playerReady sid r st)) = socketToRole st
  /\ (~ (forall r', r' ∈ keys (players st) -> r' ∈ readySet st) ->
      playerReady sid r st = (st, [(ToAllExcept sid, someoneReady r)]))
  /\ ((forall r', r' ∈ keys (players st) -> r' ∈ readySet st) ->
      readySet (fst (playerReady sid r st)) = ∅
      /\ exists roundPoints,
           snd (playerReady sid r st)
           = [(ToAllExcept sid, someoneReady r); (ToAll, startRoll roundPoints)]).
Proof.
  intros Hown Hr. rewrite playerReady_accepted by done.
  rewrite ready_added_already by done. simpl.
  destruct (allReady st) eqn:Hall.
  - rewrite tryStartRoll_fires by done. simpl.
    apply allReady_true in Hall as [_ Hall].
    split; [done|]. split; [done|]. split; [intros Hn; by destruct Hn|].
    intros _. split; [done | eauto].
  - rewrite tryStartRoll_idle by done. simpl.
    split; [done|]. split; [done|]. split; [done|]. intros Hall'. exfalso.
    assert (allReady st = true); [|congruence].
    apply allReady_true. split; [|done].
    apply owner_of_keys in Hown. intros Heq. rewrite Heq in Hown.
    by apply elem_of_nil in Hown.
Qed.

(** C7.  When every value of [Math.random] is a binary64 number in
    [0, 1), [generateDicePoints] returns exactly 5 numbers, each the number
    of an integer from 1 to 6, and consumes 5 random values; and when a
    round starts in a reachable state, [roundPoints] lists the online roles
    in order, the role at position [i] with the five points made, in the
    order of the calls, from the random values number [c + 5 i] to
    [c + 5 i + 4], where [c] calls preceded the round: every outcome is a
    list of 5 integers between 1 and 6. *)
Theorem dice_points_five_in_one_to_six st sid r :
  (forall n, in_unit_interval (Math_random n) = true) ->
  reachable st ->
  round_started (snd (playerReady sid r st)) = true ->
  (forall c,
     length (fst (generateDicePoints Math_random c)) = 5%nat
     /\ Forall (integer_between 1 6) (fst (generateDicePoints Math_random c))
     /\ snd (generateDicePoints Math_random c) = (c + 5)%nat)
  /\ exists roundPoints,
       snd (playerReady sid r st)
       = [(ToAllExcept sid, someoneReady r); (ToAll, startRoll roundPoints)]
       /\ keys roundPoints = keys (players st)
       /\ (forall r' pts, (r', pts) ∈ roundPoints ->
             length pts = 5%nat /\ Forall (integer_between 1 6) pts)
       /\ (forall i r', keys (players st) !! i = Some r' ->
             roundPoints !! i
             = Some (r', map (fun j => dice_point
                                         (Math_random (random_calls st + 5 * i + j)))
                             (seq 0 5))).
Proof.
  intros Hrand Hst Hfire. split.
  { intros c. unfold generateDicePoints. simpl.
    split; [reflexivity|]. split; [|reflexivity].
    by apply (five_points_in_range Math_random c). }
  pose proof (reachable_well_formed _ _ Hst) as (Hnd & _).
  destruct (not_owner sid (get r (players st))) eqn:Hown.
  { apply not_owner_true in Hown. rewrite playerReady_refused in Hfire by done.
    discriminate. }
  apply not_owner_false in Hown. rewrite playerReady_accepted in * by done.
  simpl in Hfire. rewrite round_started_tryStartRoll in Hfire.
  rewrite (tryStartRoll_fires_well_formed _ (ready_added r st)) by done. simpl.
  eexists. split; [reflexivity|]. split; [apply keys_rolls_from|]. split.
  - intros r' pts Hin.
    pose proof (rolls_from_in_range Math_random (keys (players st))
                  (random_calls st) Hrand) as Hall.
    rewrite Forall_forall in Hall. apply (Hall (r', pts)), Hin.
  - intros i r' Hi. by apply rolls_from_lookup.
Qed.

End Properties.

(* ===================================================================== *)
(** ** The properties on concrete runs                                   *)
(* ===================================================================== *)

Lemma reachable_state_after evs : reachable always_half (state_after evs).
Proof. apply reachable_run, reachable_init. Defined.

Lemma always_half_in_unit_interval n : in_unit_interval (always_half n) = true.
Proof. reflexivity. Defined.

(** With two players online and the first one ready, the ready signal of
    the second one is accepted, and C1 says when it starts a round. *)
Lemma barrier_fires_witness :
  reachable always_half (state_after two_players_one_ready)
  /\ owner_of (state_after two_players_one_ready) "建国" "c2"
  /\ (round_started
        (snd (playerReady always_half "c2" "建国"
                (state_after two_players_one_ready))) = true
      <-> JsMap.keys (players (state_after two_players_one_ready)) <> []
          /\ forall r', r' ∈ JsMap.keys (players (state_after two_players_one_ready)) ->
                r' ∈ ({[ "建国" ]} ∪ readySet (state_after two_players_one_ready)
                      : gset string)).
Proof.
  assert (owner_of (state_after two_players_one_ready) "建国" "c2") as Hown.
  { exists (Player "c2" "建国"). split; reflexivity. }
  split; [apply reachable_state_after|]. split; [exact Hown|].
  exact (proj1 (barrier_fires_iff_all_online_ready always_half
                  (state_after two_players_one_ready) "c2" "建国"
                  (reachable_state_after two_players_one_ready) Hown)).
Defined.

Lemma joint_invariant_witness :
  reachable always_half (state_after one_left_ready)
  /\ joint_invariant (state_after one_left_ready).
Proof.
  split; [apply reachable_state_after|].
  exact (proj1 (joint_invariant_reachable_and_preserved always_half
                  (state_after one_left_ready)
                  (reachable_state_after one_left_ready))).
Defined.

(** C4, as stated, fails: after its successful claim, the socket "c1" asks
    for a role that is not a fixed role and is told that the role is
    invalid, then asks for the role it holds and is told that the role is
    taken; neither reply is the one of a connection that has already
    claimed. *)
Lemma second_claim_other_errors :
  snd (run always_half one_player init)
  = [(ToSocket "c1", roleAssigned true (Some "建广") None);
     (ToAll, playersUpdate ["建广"])]
  /\ selectRole "c1" "骰子" (state_after one_player)
     = (state_after one_player,
        [(ToSocket "c1", roleAssigned false None (Some msg_invalid_role))])
  /\ selectRole "c1" "建广" (state_after one_player)
     = (state_after one_player,
        [(ToSocket "c1", roleAssigned false None (Some msg_role_taken))])
  /\ msg_invalid_role <> msg_already_claimed
  /\ msg_role_taken <> msg_already_claimed.
Proof.
  split; [reflexivity|]. split; [reflexivity|]. split; [reflexivity|].
  split; discriminate.
Qed.

(** The amended C4 on a run: "c1" claims a role, "c2" claims another, and
    "c1" then asks for a free fixed role. *)
Lemma second_claim_refused_witness :
  ("建广" ∈ FIXED_ROLES) /\ ("建广" ∉ JsMap.keys (players init))
  /\ ("c1" ∉ JsMap.keys (socketToRole init))
  /\ (Disconnect "c1" ∉ [SelectRole "c2" "建国"])
  /\ exists text,
       selectRole "c1" "李川"
         (fst (run always_half [SelectRole "c2" "建国"]
                 (fst (selectRole "c1" "建广" init))))
       = (fst (run always_half [SelectRole "c2" "建国"]
                 (fst (selectRole "c1" "建广" init))),
          [(ToSocket "c1", roleAssigned false None (Some text))])
       /\ text = msg_already_claimed.
Proof.
  assert ("建广" ∈ FIXED_ROLES) as H1
    by (apply (bool_decide_eq_true_1 ("建广" ∈ FIXED_ROLES)); reflexivity).
  assert ("建广" ∉ JsMap.keys (players init)) as H2 by apply not_elem_of_nil.
  assert ("c1" ∉ JsMap.keys (socketToRole init)) as H3 by apply not_elem_of_nil.
  assert (Disconnect "c1" ∉ [SelectRole "c2" "建国"]) as H4.
  { intros H. apply list_elem_of_singleton in H. discriminate H. }
  repeat (split; [assumption|]).
  destruct (second_claim_refused always_half init "c1" "建广"
              [SelectRole "c2" "建国"] "李川" _ H1 H2 H3 H4 eq_refl)
    as (text & Heq & _ & _ & Hfree).
  exists text. split; [exact Heq|]. apply Hfree.
  - apply (bool_decide_eq_true_1 ("李川" ∈ FIXED_ROLES)). reflexivity.
  - apply (bool_decide_eq_false_1 ("李川" ∈ _)). reflexivity.
Defined.

Lemma round_covers_online_roles_witness :
  reachable always_half (state_after two_players_one_ready)
  /\ round_started
       (snd (playerReady always_half "c2" "建国"
               (state_after two_players_one_ready))) = true
  /\ exists roundPoints,
       snd (playerReady always_half "c2" "建国"
              (state_after two_players_one_ready))
       = [(ToAllExcept "c2", someoneReady "建国"); (ToAll, startRoll roundPoints)]
       /\ JsMap.keys roundPoints = ["建广"; "建国"].
Proof.
  split; [apply reachable_state_after|]. split; [reflexivity|].
  destruct (round_covers_online_roles always_half
              (state_after two_players_one_ready) "c2" "建国"
              (reachable_state_after two_players_one_ready) eq_refl)
    as (rp & Hout & _ & Hkeys & _).
  exists rp. split; [exact Hout | exact Hkeys].
Defined.

(** C6 on a run where the disconnection leaves one online role, which is
    ready: the roster is sent, no round starts, the ready role stays. *)
Lemma disconnect_witness :
  reachable always_half (state_after two_players_one_ready)
  /\ JsMap.get "c2" (socketToRole (state_after two_players_one_ready))
     = Some "建国"
  /\ allReady (state_after one_left_ready) = true
  /\ exists st',
       disconnect "c2" (state_after two_players_one_ready)
       = (st', [(ToAll, playersUpdate (JsMap.keys (players st')))])
       /\ readySet st' = readySet (state_after two_players_one_ready) ∖ {[ "建国" ]}
       /\ round_started
            (snd (disconnect "c2" (state_after two_players_one_ready))) = false.
Proof.
  split; [apply reachable_state_after|]. split; [reflexivity|].
  split; [reflexivity|].
  destruct (disconnect_releases_without_round always_half
              (state_after two_players_one_ready) "c2" "建国"
              (reachable_state_after two_players_one_ready) eq_refl)
    as (st' & Heq & _ & _ & Hready & _ & _ & _ & _ & Hround).
  exists st'. split; [exact Heq|]. split; [exact Hready | exact Hround].
Defined.

Lemma dice_points_witness :
  (forall n, in_unit_interval (always_half n) = true)
  /\ reachable always_half (state_after two_players_one_ready)
  /\ round_started
       (snd (playerReady always_half "c2" "建国"
               (state_after two_players_one_ready))) = true
  /\ exists roundPoints,
       snd (playerReady always_half "c2" "建国"
              (state_after two_players_one_ready))
       = [(ToAllExcept "c2", someoneReady "建国"); (ToAll, startRoll roundPoints)]
       /\ forall r' pts, (r', pts) ∈ roundPoints ->
            length pts = 5%nat /\ Forall (integer_between 1 6) pts.
Proof.
  split; [exact always_half_in_unit_interval|].
  split; [apply reachable_state_after|]. split; [reflexivity|].
  destruct (dice_points_five_in_one_to_six always_half
              (state_after two_players_one_ready) "c2" "建国"
              always_half_in_unit_interval
              (reachable_state_after two_players_one_ready) eq_refl)
    as (_ & rp & Hout & _ & Hpts & _).
  exists rp. split; [exact Hout | exact Hpts].
Defined.

(** C8, as stated, fails.  With "建广" already in [readySet] and owned by
    "c1", a second signal emits the notice of readiness once more; and once
    the other player has left, the second signal starts a round and clears
    [readySet]. *)
Lemma repeated_signal_not_a_no_op :
  bool_decide ("建广" ∈ readySet (state_after two_players_one_ready)) = true
  /\ JsMap.get "建广" (players (state_after two_players_one_ready))
     = Some (Player "c1" "建广")
  /\ playerReady always_half "c1" "建广" (state_after two_players_one_ready)
     = (state_after two_players_one_ready,
        [(ToAllExcept "c1", someoneReady "建广")])
  /\ bool_decide ("建广" ∈ readySet (state_after one_left_ready)) = true
  /\ JsMap.get "建广" (players (state_after one_left_ready))
     = Some (Player "c1" "建广")
  /\ round_started
       (snd (playerReady always_half "c1" "建广" (state_after one_left_ready)))
     = true
  /\ readySet (fst (playerReady always_half "c1" "建广"
                      (state_after one_left_ready))) = ∅
  /\ readySet (state_after one_left_ready) <> ∅.
Proof.
  repeat (split; [vm_compute; reflexivity|]).
  intros H. apply (f_equal (fun s => bool_decide ("建广" ∈ s))) in H.
  vm_compute in H. discriminate H.
Qed.

(** The amended C8 on the run where the other player is still online and
    not ready: the second signal changes nothing and emits the notice. *)
Lemma repeated_ready_signal_witness :
  owner_of (state_after two_players_one_ready) "建广" "c1"
  /\ ("建广" ∈ readySet (state_after two_players_one_ready))
  /\ players (fst (playerReady always_half "c1" "建广"
                     (state_after two_players_one_ready)))
     = players (state_after two_players_one_ready)
  /\ socketToRole (fst (playerReady always_half "c1" "建广"
                          (state_after two_players_one_ready)))
     = socketToRole (state_after two_players_one_ready).
Proof.
  assert (owner_of (state_after two_players_one_ready) "建广" "c1") as Hown.
  { exists (Player "c1" "建广"). split; reflexivity. }
  assert ("建广" ∈ readySet (state_after two_players_one_ready)) as Hr.
  { apply (bool_decide_eq_true_1 ("建广" ∈ _)). vm_compute. reflexivity. }
  split; [exact Hown|]. split; [exact Hr|].
  destruct (repeated_ready_signal always_half
              (state_after two_players_one_ready) "c1" "建广" Hown Hr)
    as (Hp & Hs & _).
  split; [exact Hp | exact Hs].
Defined.

(* ===================================================================== *)
(** ** More facts about [JsMap]                                          *)
(* ===================================================================== *)

Module JsMapMoreFacts.
Import JsMap JsMapFacts.

Section facts.
Context {V : Type}.
Implicit Types (m : JsMap.t V) (k : string) (v : V).

Lemma keys_delete k m : keys (delete k m) = filter (fun x => x <> k) (keys m).
Proof.
  unfold keys. induction m as [|[k0 v0] m IH]; simpl; [done|].
  case_decide as Hk.
  - subst k0. rewrite filter_cons_False by (intros H; by apply H). exact IH.
  - rewrite filter_cons_True by congruence. simpl. by rewrite IH.
Qed.


Lemma length_delete k m :
  NoDup (keys m) -> k ∈ keys m -> S (length (delete k m)) = length m.
Proof.
  unfold keys. induction m as [|[k0 v0] m IH]; simpl.
  - intros _ H. by apply elem_of_nil in H.
  - rewrite NoDup_cons, elem_of_cons. intros [Hnin Hnd] Hin.
    case_decide as Hk.
    + subst k0. f_equal.
      assert (delete k m = m) as ->; [|done].
      clear IH Hnd Hin. induction m as [|[k1 v1] m IH]; simpl; [done|].
      simpl in Hnin. apply not_elem_of_cons in Hnin as [Hne Hnin].
      rewrite decide_False by done. f_equal. by apply IH.
    + simpl. f_equal. apply IH; [done|]. destruct Hin; [congruence | done].
Qed.

End facts.
End JsMapMoreFacts.

(* ===================================================================== *)
(** ** Further properties of the coordinator                             *)
(* ===================================================================== *)

Section MoreProperties.

Variable Math_random : nat -> spec_float.

Import JsMap JsMapFacts JsMapMoreFacts.

Local Abbreviation tryStartRoll := (tryStartRoll Math_random).
Local Abbreviation playerReady := (playerReady Math_random).
Local Abbreviation handle := (handle Math_random).
Local Abbreviation reachable := (reachable Math_random).
Local Abbreviation run := (run Math_random).

Lemma reachable_role_not_empty st sid r :
  reachable st -> get sid (socketToRole st) = Some r -> r <> "".
Proof.
  intros Hst Hs. apply fixed_role_not_empty.
  eapply assigned_role_fixed; [| |exact Hs].
  - by eapply reachable_joint_invariant.
  - by eapply reachable_well_formed.
Qed.

Lemma reachable_disconnect st sid r :
  reachable st -> get sid (socketToRole st) = Some r ->
  disconnect sid st
  = (role_released sid r st,
     [(ToAll, playersUpdate (playerList (role_released sid r st)))])
  /\ reachable (role_released sid r st).
Proof.
  intros Hst Hs.
  pose proof (disconnect_assigned sid r st Hs
                (reachable_role_not_empty st sid r Hst Hs)) as Heq.
  split; [exact Heq|].
  pose proof (reachable_step Math_random (Disconnect sid) st Hst) as H.
  simpl in H. by rewrite Heq in H.
Qed.

(** X1.  A role released by a disconnection can be claimed again at once:
    in a reachable state where socket [sid] holds role [r], after the
    disconnection of [sid] any socket that holds no role is granted [r],
    and both maps record the new owner. *)
Theorem released_role_can_be_claimed_again st sid r sid' :
  reachable st ->
  get sid (socketToRole st) = Some r ->
  (sid' ∉ keys (socketToRole (fst (disconnect sid st)))) ->
  exists st',
    selectRole sid' r (fst (disconnect sid st))
    = (st', [(ToSocket sid', roleAssigned true (Some r) None);
             (ToAll, playersUpdate (keys (players st')))])
    /\ get r (players st') = Some (Player sid' r)
    /\ get sid' (socketToRole st') = Some r.
Proof.
  intros Hst Hs. destruct (reachable_disconnect st sid r Hst Hs) as [-> Hrel].
  simpl. intros Hnew.
  assert (r ∈ FIXED_ROLES) as Hfix.
  { eapply assigned_role_fixed; [| |exact Hs].
    - by eapply reachable_joint_invariant.
    - by eapply reachable_well_formed. }
  assert (r ∉ keys (players (role_released sid r st))) as Hfree.
  { simpl. apply get_None, get_delete_eq. }
  destruct (selectRole_cases sid' r (role_released sid r st))
    as [(? & _)|[(_ & ? & _)|[(_ & _ & ? & _)|(_ & _ & _ & Heq)]]]; try done.
  exists (role_claimed sid' r (role_released sid r st)).
  pose proof (reachable_step Math_random (SelectRole sid' r) _ Hrel) as Hst'.
  simpl in Hst'. rewrite Heq in Hst'. simpl in Hst'.
  rewrite <- (playerList_keys _ (reachable_well_formed _ _ Hst')).
  split; [exact Heq|]. simpl. by rewrite !get_set_eq.
Qed.

(** X2.  In a reachable state a disconnection does nothing exactly when the
    socket holds no role: the truthiness test on the stored role never
    skips the cleanup of an assigned role, because stored roles are never
    the empty string. *)
Theorem disconnect_noop_iff_no_role st sid :
  reachable st ->
  (disconnect sid st = (st, []) <-> sid ∉ keys (socketToRole st))
  /\ (snd (disconnect sid st) = [] <-> sid ∉ keys (socketToRole st)).
Proof.
  intros Hst.
  assert (sid ∉ keys (socketToRole st) -> disconnect sid st = (st, [])) as Hno
    by apply disconnect_unassigned.
  assert (snd (disconnect sid st) = [] -> sid ∉ keys (socketToRole st)) as Hyes.
  { intros Hout Hin. apply elem_of_keys in Hin as [r Hs].
    destruct (reachable_disconnect st sid r Hst Hs) as [Heq _].
    rewrite Heq in Hout. discriminate Hout. }
  split; split; intros H.
  - apply Hyes. by rewrite H.
  - by apply Hno.
  - by apply Hyes.
  - by rewrite Hno.
Qed.

Lemma playerReady_frame sid r st :
  players (fst (playerReady sid r st)) = players st
  /\ socketToRole (fst (playerReady sid r st)) = socketToRole st.
Proof.
  destruct (not_owner sid (get r (players st))) eqn:Hown.
  - apply not_owner_true in Hown. by rewrite playerReady_refused.
  - apply not_owner_false in Hown. rewrite playerReady_accepted by done. simpl.
    destruct (allReady (ready_added r st)) eqn:Hall.
    + by rewrite tryStartRoll_fires.
    + by rewrite tryStartRoll_idle.
Qed.

Lemma reachable_same_length st :
  reachable st -> length (players st) = length (socketToRole st).
Proof.
  induction 1 as [|ev st Hst IH]; [done|].
  destruct ev as [sid r|sid r|sid]; simpl.
  - destruct (selectRole_cases sid r st)
      as [(_ & ->)|[(_ & _ & ->)|[(_ & _ & _ & ->)|(_ & Hr & Hc & ->)]]];
      try done.
    simpl. rewrite !set_fresh by done. rewrite !length_app. simpl. lia.
  - destruct (playerReady_frame sid r st) as [-> ->]. exact IH.
  - destruct (get sid (socketToRole st)) as [r|] eqn:Hs.
    + destruct (reachable_disconnect st sid r Hst Hs) as [-> _]. simpl.
      pose proof (reachable_well_formed _ _ Hst) as (Hp & Hc & _).
      pose proof (reachable_joint_invariant _ _ Hst) as [Hinv _].
      apply eq_add_S. rewrite !length_delete; try done.
      * apply elem_of_keys. eauto.
      * apply Hinv in Hs. by eapply owner_of_keys.
    + apply get_None in Hs. by rewrite disconnect_unassigned.
Qed.

Lemma reachable_keys_fixed st r :
  reachable st -> r ∈ keys (players st) -> r ∈ FIXED_ROLES.
Proof.
  intros Hst Hr. pose proof (reachable_well_formed _ _ Hst) as (_ & _ & Hall).
  unfold keys in Hr. apply list_elem_of_fmap in Hr as ([k p] & -> & Hin).
  rewrite Forall_forall in Hall. by apply (Hall (k, p)).
Qed.

(** X3.  In every reachable state the roster that [broadcastPlayers] sends
    is the list of the keys of [players]; it has no repetition, holds only
    fixed roles and so at most 5 of them; [socketToRole] has as many
    entries as [players]; and [readySet] has at most as many elements. *)
Theorem roster_of_reachable_state st :
  reachable st ->
  playerList st = keys (players st)
  /\ NoDup (playerList st)
  /\ (forall r, r ∈ playerList st -> r ∈ FIXED_ROLES)
  /\ (length (playerList st) <= 5)%nat
  /\ length (socketToRole st) = length (players st)
  /\ (size (readySet st) <= length (players st))%nat.
Proof.
  intros Hst. pose proof (reachable_well_formed _ _ Hst) as Hwf.
  pose proof Hwf as (Hnd & _ & _).
  pose proof (reachable_joint_invariant _ _ Hst) as [_ Hsub].
  rewrite (playerList_keys st Hwf).
  split; [done|]. split; [done|].
  split; [intros r; by apply reachable_keys_fixed|].
  split.
  - change 5%nat with (length FIXED_ROLES). apply submseteq_length.
    apply NoDup_submseteq; [done|]. intros r. by apply reachable_keys_fixed.
  - split; [symmetry; by apply reachable_same_length|].
    replace (length (players st)) with (length (keys (players st)))
      by apply length_map.
    rewrite <- (size_list_to_set (C := gset string)) by done.
    apply subseteq_size. intros r Hr. apply elem_of_list_to_set. by apply Hsub.
Qed.

(** X4.  When the five roles are assigned, no claim can succeed: every
    [selectRole] is refused, with the state unchanged, as an invalid role
    or as a role already taken. *)
Theorem no_claim_when_full st sid r :
  reachable st ->
  length (players st) = 5%nat ->
  selectRole sid r st
  = (st, [(ToSocket sid, roleAssigned false None (Some msg_invalid_role))])
  \/ selectRole sid r st
     = (st, [(ToSocket sid, roleAssigned false None (Some msg_role_taken))]).
Proof.
  intros Hst Hlen.
  pose proof (reachable_well_formed _ _ Hst) as (Hnd & _ & _).
  assert (keys (players st) ≡ₚ FIXED_ROLES) as Hperm.
  { apply submseteq_length_Permutation.
    - apply NoDup_submseteq; [done|]. intros x. by apply reachable_keys_fixed.
    - unfold keys. rewrite length_map, Hlen. reflexivity. }
  destruct (selectRole_cases sid r st)
    as [(_ & ->)|[(_ & _ & ->)|[(Hfix & Hfree & _)|(Hfix & Hfree & _)]]];
    [by left | by right | |]; exfalso; apply Hfree; by rewrite Hperm.
Qed.

(** X10.  A disconnection removes the released role from the roster and
    keeps the other roles in their order: the roster sent afterwards is
    the former roster without that role. *)
Theorem roster_after_disconnect st sid r :
  reachable st ->
  get sid (socketToRole st) = Some r ->
  snd (disconnect sid st)
  = [(ToAll, playersUpdate (filter (fun x => x <> r) (playerList st)))].
Proof.
  intros Hst Hs. destruct (reachable_disconnect st sid r Hst Hs) as [-> Hrel].
  simpl. rewrite (playerList_keys _ (reachable_well_formed _ _ Hrel)).
  rewrite (playerList_keys _ (reachable_well_formed _ _ Hst)).
  simpl. by rewrite keys_delete.
Qed.

(** X5.  Every handler addresses its messages as the protocol requires:
    replies to a claim and error notices go to the socket of the event and
    to no other, rosters and round starts go to all, and the notice of
    readiness goes to all but the socket of the event. *)
Theorem emissions_addressed_as_in_source ev st :
  Forall (addressed_as_in_source (sid_of ev)) (snd (handle ev st)).
Proof.
  destruct ev as [sid r|sid r|sid]; simpl.
  - destruct (selectRole_cases sid r st)
      as [(_ & ->)|[(_ & _ & ->)|[(_ & _ & _ & ->)|(_ & _ & _ & ->)]]];
      simpl; repeat constructor.
  - destruct (not_owner sid (get r (players st))) eqn:Hown.
    + apply not_owner_true in Hown. rewrite playerReady_refused by done.
      simpl. repeat constructor.
    + apply not_owner_false in Hown. rewrite playerReady_accepted by done.
      simpl. destruct (allReady (ready_added r st)) eqn:Hall.
      * rewrite tryStartRoll_fires by done. simpl. repeat constructor.
      * rewrite tryStartRoll_idle by done. simpl. repeat constructor.
  - unfold disconnect. destruct (get sid (socketToRole st)) as [r|];
      [|constructor].
    destruct (truthy (Some r)); simpl; repeat constructor.
Qed.

(** X6.  Only an accepted ready signal starts a round or draws random
    numbers: in a reachable state, an event whose output holds a
    [startRoll] is a [playerReady] from the socket that owns the role, the
    output holds a single [startRoll], and [Math.random] has been called
    exactly 5 times per online role; any other event leaves the number of
    calls as it was. *)
Theorem round_only_from_accepted_ready ev st :
  reachable st ->
  (round_started (snd (handle ev st)) = true ->
   (exists sid r, ev = PlayerReady sid r /\ owner_of st r sid)
   /\ rounds (snd (handle ev st)) = 1%nat
   /\ random_calls (fst (handle ev st))
      = (random_calls st + 5 * length (players st))%nat)
  /\ (round_started (snd (handle ev st)) = false ->
      rounds (snd (handle ev st)) = 0%nat
      /\ random_calls (fst (handle ev st)) = random_calls st).
Proof.
  intros Hst. pose proof (reachable_well_formed _ _ Hst) as (Hnd & _).
  destruct ev as [sid r|sid r|sid]; simpl.
  - destruct (selectRole_cases sid r st)
      as [(_ & ->)|[(_ & _ & ->)|[(_ & _ & _ & ->)|(_ & _ & _ & ->)]]];
      simpl; split; done.
  - destruct (not_owner sid (get r (players st))) eqn:Hown.
    + apply not_owner_true in Hown. rewrite playerReady_refused by done.
      simpl. split; done.
    + apply not_owner_false in Hown. rewrite playerReady_accepted by done.
      simpl. destruct (allReady (ready_added r st)) eqn:Hall.
      * rewrite (tryStartRoll_fires_well_formed _ (ready_added r st)) by done.
        simpl. split; [|discriminate]. intros _. split; [eauto|].
        split; [done|]. unfold keys. by rewrite length_map.
      * rewrite tryStartRoll_idle by done. simpl. split; done.
  - unfold disconnect. destruct (get sid (socketToRole st)) as [r|];
      [|split; done].
    destruct (truthy (Some r)); simpl; split; done.
Qed.

Lemma role_kept_by_handle st sid r ev :
  get sid (socketToRole st) = Some r ->
  ev <> Disconnect sid ->
  get sid (socketToRole (fst (handle ev st))) = Some r.
Proof.
  intros Hs Hev. destruct ev as [c r'|c r'|c]; simpl.
  - destruct (selectRole_cases c r' st)
      as [(_ & ->)|[(_ & _ & ->)|[(_ & _ & _ & ->)|(_ & _ & Hc & ->)]]];
      try done.
    simpl. rewrite get_set_ne; [done|]. intros ->. apply Hc, elem_of_keys. eauto.
  - by destruct (playerReady_frame c r' st) as [_ ->].
  - unfold disconnect. destruct (get c (socketToRole st)) as [r0|]; [|done].
    destruct (truthy (Some r0)); [|done]. simpl.
    rewrite get_delete_ne; [done | congruence].
Qed.

(** X8.  A connection keeps its role until it disconnects: from a
    reachable state where socket [sid] holds role [r], after any events
    among which there is no disconnection of [sid], [socketToRole] still
    maps [sid] to [r] and [players] still maps [r] to [sid]; nothing the
    other connections do, and no further claim of [sid], changes it. *)
Theorem role_kept_until_disconnect st sid r evs :
  reachable st ->
  get sid (socketToRole st) = Some r ->
  (Disconnect sid ∉ evs) ->
  get sid (socketToRole (fst (run evs st))) = Some r
  /\ get r (players (fst (run evs st))) = Some (Player sid r).
Proof.
  intros Hst Hs Hev.
  assert (get sid (socketToRole (fst (run evs st))) = Some r) as Hkept.
  { clear Hst. revert st Hs. induction evs as [|ev evs IH]; intros st Hs; [done|].
    apply not_elem_of_cons in Hev as [Hne Hev]. simpl.
    pose proof (role_kept_by_handle st sid r ev Hs ltac:(congruence)) as H1.
    destruct (handle ev st) as [st1 out1]. simpl in H1.
    specialize (IH Hev st1 H1). by destruct (run evs st1). }
  split; [exact Hkept|].
  pose proof (reachable_run Math_random evs st Hst) as Hst'.
  pose proof (reachable_joint_invariant _ _ Hst') as [Hinv _].
  pose proof (reachable_well_formed _ _ Hst') as (Hnd & _ & Hall).
  apply Hinv in Hkept as (p & Hp & Hsid).
  rewrite Hp. f_equal. destruct p as [c r0]. simpl in Hsid. subst c.
  f_equal. clear Hinv Hnd.
  induction Hall as [|[k q] m [Hk _] _ IH]; simpl in *; [done|].
  case_decide; [|by apply IH]. injection Hp as ->. by subst.
Qed.

(* ===================================================================== *)
(** ** Everyone signals ready                                            *)
(* ===================================================================== *)

Lemma run_cons ev evs st :
  fst (run (ev :: evs) st) = fst (run evs (fst (handle ev st)))
  /\ snd (run (ev :: evs) st)
     = (snd (handle ev st) ++ snd (run evs (fst (handle ev st))))%list.
Proof.
  simpl. destruct (handle ev st) as [st1 out1]. simpl.
  by destruct (run evs st1).
Qed.







(** X9.  Every face can come up: for each [k] from 1 to 6 there is a value
    that [Math.random] may return for which the dice formula gives [k]; the
    range 1..6 of the points is exact. *)
Theorem every_face_attainable k :
  (1 <= k <= 6)%Z ->
  in_unit_interval (value_for_face k) = true
  /\ dice_point (value_for_face k) = Z2SF k.
Proof.
  intros Hk.
  assert (k = 1 \/ k = 2 \/ k = 3 \/ k = 4 \/ k = 5 \/ k = 6)%Z
    as [->|[->|[->|[->|[->| ->]]]]] by lia; split; reflexivity.
Qed.

Lemma roster_of_handle ev st l :
  (ToAll, playersUpdate l) ∈ snd (handle ev st) ->
  l = playerList (fst (handle ev st)).
Proof.
  destruct ev as [sid r|sid r|sid]; simpl.
  - destruct (selectRole_cases sid r st)
      as [(_ & ->)|[(_ & _ & ->)|[(_ & _ & _ & ->)|(_ & _ & _ & ->)]]];
      simpl; intros H;
      repeat (apply elem_of_cons in H as [H|H]; [try discriminate H|]);
      try (by apply elem_of_nil in H).
    by injection H.
  - destruct (not_owner sid (get r (players st))) eqn:Hown.
    + apply not_owner_true in Hown. rewrite playerReady_refused by done.
      simpl. intros H. apply list_elem_of_singleton in H. discriminate H.
    + apply not_owner_false in Hown. rewrite playerReady_accepted by done.
      simpl. destruct (allReady (ready_added r st)) eqn:Hall.
      * rewrite tryStartRoll_fires by done. simpl. intros H.
        repeat (apply elem_of_cons in H as [H|H]; [discriminate H|]).
        by apply elem_of_nil in H.
      * rewrite tryStartRoll_idle by done. simpl. intros H.
        apply list_elem_of_singleton in H. discriminate H.
  - unfold disconnect. destruct (get sid (socketToRole st)) as [r|]; simpl;
      [|intros H; by apply elem_of_nil in H].
    destruct (negb (bool_decide (r = ""))); simpl; intros H;
      [|by apply elem_of_nil in H].
    apply list_elem_of_singleton in H. by injection H.
Qed.

(** X11.  No roster ever broadcast is malformed: along any run from a
    reachable state, every [playersUpdate] carries a list without
    repetition, made of fixed roles only, of at most 5 entries. *)
Theorem every_roster_broadcast_is_sound st evs l :
  reachable st ->
  ((ToAll, playersUpdate l) ∈ snd (run evs st)) ->
  NoDup l /\ (forall r, r ∈ l -> r ∈ FIXED_ROLES) /\ (length l <= 5)%nat.
Proof.
  revert st. induction evs as [|ev evs IH]; intros st Hst Hin.
  { simpl in Hin. by apply elem_of_nil in Hin. }
  destruct (run_cons ev evs st) as [_ Hout]. rewrite Hout in Hin.
  pose proof (reachable_step Math_random ev st Hst) as Hst1.
  apply elem_of_app in Hin as [Hin|Hin]; [|by apply (IH _ Hst1)].
  apply roster_of_handle in Hin as ->.
  pose proof (reachable_well_formed _ _ Hst1) as Hwf.
  rewrite (playerList_keys _ Hwf). destruct Hwf as (Hnd & _).
  split; [done|]. split; [intros r; by apply reachable_keys_fixed|].
  change 5%nat with (length FIXED_ROLES). apply submseteq_length.
  apply NoDup_submseteq; [done|]. intros r. by apply reachable_keys_fixed.
Qed.

End MoreProperties.

(* ===================================================================== *)
(** ** The further properties on concrete runs                           *)
(* ===================================================================== *)

(** The second player leaves and a third socket takes over its role. *)
Lemma released_role_witness :
  reachable always_half (state_after two_players_one_ready)
  /\ JsMap.get "c2" (socketToRole (state_after two_players_one_ready))
     = Some "建国"
  /\ ("c3" ∉ JsMap.keys
               (socketToRole
                  (fst (disconnect "c2" (state_after two_players_one_ready)))))
  /\ exists st',
       fst (selectRole "c3" "建国"
              (fst (disconnect "c2" (state_after two_players_one_ready)))) = st'
       /\ JsMap.get "建国" (players st') = Some (Player "c3" "建国").
Proof.
  assert ("c3" ∉ JsMap.keys
                   (socketToRole
                      (fst (disconnect "c2" (state_after two_players_one_ready)))))
    as Hnew.
  { apply (bool_decide_eq_false_1 ("c3" ∈ _)). vm_compute. reflexivity. }
  split; [apply reachable_state_after|]. split; [reflexivity|].
  split; [exact Hnew|].
  destruct (released_role_can_be_claimed_again always_half
              (state_after two_players_one_ready) "c2" "建国" "c3"
              (reachable_state_after two_players_one_ready) eq_refl Hnew)
    as (st' & Heq & Hget & _).
  exists st'. split; [by rewrite Heq | exact Hget].
Defined.

Lemma disconnect_noop_witness :
  reachable always_half (state_after two_players_one_ready)
  /\ (snd (disconnect "c9" (state_after two_players_one_ready)) = []
      <-> "c9" ∉ JsMap.keys (socketToRole (state_after two_players_one_ready))).
Proof.
  split; [apply reachable_state_after|].
  exact (proj2 (disconnect_noop_iff_no_role always_half
                  (state_after two_players_one_ready) "c9"
                  (reachable_state_after two_players_one_ready))).
Defined.

Lemma roster_witness :
  reachable always_half (state_after full_house)
  /\ playerList (state_after full_house)
     = JsMap.keys (players (state_after full_house))
  /\ NoDup (playerList (state_after full_house)).
Proof.
  split; [apply reachable_state_after|].
  destruct (roster_of_reachable_state always_half (state_after full_house)
              (reachable_state_after full_house)) as (H1 & H2 & _).
  split; [exact H1 | exact H2].
Defined.

Lemma no_claim_when_full_witness :
  reachable always_half (state_after full_house)
  /\ length (players (state_after full_house)) = 5%nat
  /\ (selectRole "c6" "建广" (state_after full_house)
      = (state_after full_house,
         [(ToSocket "c6", roleAssigned false None (Some msg_invalid_role))])
      \/ selectRole "c6" "建广" (state_after full_house)
         = (state_after full_house,
            [(ToSocket "c6", roleAssigned false None (Some msg_role_taken))])).
Proof.
  split; [apply reachable_state_after|]. split; [reflexivity|].
  exact (no_claim_when_full always_half (state_after full_house) "c6" "建广"
           (reachable_state_after full_house) eq_refl).
Defined.

Lemma round_only_from_ready_witness :
  reachable always_half (state_after two_players_one_ready)
  /\ round_started
       (snd (handle always_half (PlayerReady "c2" "建国")
               (state_after two_players_one_ready))) = true
  /\ rounds (snd (handle always_half (PlayerReady "c2" "建国")
                    (state_after two_players_one_ready))) = 1%nat
  /\ random_calls (fst (handle always_half (PlayerReady "c2" "建国")
                          (state_after two_players_one_ready)))
     = 10%nat.
Proof.
  split; [apply reachable_state_after|]. split; [reflexivity|].
  destruct (proj1 (round_only_from_accepted_ready always_half
                     (PlayerReady "c2" "建国")
                     (state_after two_players_one_ready)
                     (reachable_state_after two_players_one_ready)) eq_refl)
    as (_ & Hone & Hcalls).
  split; [exact Hone | exact Hcalls].
Defined.


(** "c1" keeps its role while "c2" joins, "c1" asks for another role, "c2"
    signals ready and leaves. *)
Lemma role_kept_witness :
  reachable always_half (state_after one_player)
  /\ JsMap.get "c1" (socketToRole (state_after one_player)) = Some "建广"
  /\ (Disconnect "c1"
        ∉ [SelectRole "c2" "建国"; SelectRole "c1" "李川";
           PlayerReady "c2" "建国"; Disconnect "c2"])
  /\ JsMap.get "c1"
       (socketToRole
          (fst (run always_half
                  [SelectRole "c2" "建国"; SelectRole "c1" "李川";
                   PlayerReady "c2" "建国"; Disconnect "c2"]
                  (state_after one_player)))) = Some "建广".
Proof.
  assert (Disconnect "c1"
            ∉ [SelectRole "c2" "建国"; SelectRole "c1" "李川";
               PlayerReady "c2" "建国"; Disconnect "c2"]) as Hev.
  { intros H. repeat (apply elem_of_cons in H as [H|H]; [discriminate H|]).
    by apply elem_of_nil in H. }
  split; [apply reachable_state_after|]. split; [reflexivity|].
  split; [exact Hev|].
  exact (proj1 (role_kept_until_disconnect always_half (state_after one_player)
                  "c1" "建广" _ (reachable_state_after one_player) eq_refl Hev)).
Defined.

Lemma face_four_witness :
  (1 <= 4 <= 6)%Z /\ dice_point (value_for_face 4) = Z2SF 4.
Proof.
  assert (1 <= 4 <= 6)%Z as Hk by lia.
  split; [exact Hk|]. exact (proj2 (every_face_attainable 4 Hk)).
Defined.

Lemma roster_after_disconnect_witness :
  reachable always_half (state_after two_players_one_ready)
  /\ JsMap.get "c1" (socketToRole (state_after two_players_one_ready))
     = Some "建广"
  /\ snd (disconnect "c1" (state_after two_players_one_ready))
     = [(ToAll,
         playersUpdate
           (filter (fun x => x <> "建广")
                   (playerList (state_after two_players_one_ready))))].
Proof.
  split; [apply reachable_state_after|]. split; [reflexivity|].
  exact (roster_after_disconnect always_half
           (state_after two_players_one_ready) "c1" "建广"
           (reachable_state_after two_players_one_ready) eq_refl).
Defined.

Lemma roster_broadcast_witness :
  reachable always_half (state_after one_player)
  /\ ((ToAll, playersUpdate ["建广"; "建国"])
        ∈ snd (run always_half [SelectRole "c2" "建国"] (state_after one_player)))
  /\ NoDup ["建广"; "建国"].
Proof.
  assert ((ToAll, playersUpdate ["建广"; "建国"])
            ∈ snd (run always_half [SelectRole "c2" "建国"]
                     (state_after one_player))) as Hin.
  { right. left. }
  split; [apply reachable_state_after|]. split; [exact Hin|].
  exact (proj1 (every_roster_broadcast_is_sound always_half
                  (state_after one_player) [SelectRole "c2" "建国"] _
                  (reachable_state_after one_player) Hin)).
Defined.
